(** * Snippet dependency and usage analyzer

    A shallow embedding of [docs/v3/scripts/analyze_snippet_usage_updated.py]:
    the reference extractor, the dependency graph builder, the two worklist
    closures and the orphan computation, together with the properties the
    specification states about them. *)

From stdpp Require Import gmap strings list fin_maps fin_sets pretty.
From Stdlib Require Import Ascii String.

Local Open Scope string_scope.

(** ** Data model *)

(** The three category strings the script writes into [snippet_categories]
    and into every reference record: "field", "type" and "other". *)
Inductive category : Type :=
  | CField
  | CType
  | COther.

#[global] Instance category_eq_dec : EqDecision category.
Proof. solve_decision. Defined.

(** [snippet_deps]: snippet name to the set of names it references. *)
Abbreviation dep_graph := (gmap string (gset string)).

(** [snippet_categories]: snippet name to its path-derived category. *)
Abbreviation cat_map := (gmap string category).

(** [snippet_deps.get(name, set())]: a name without an entry has no edges. *)
Definition deps_get (snippet_deps : dep_graph) (name : string) : gset string :=
  default ∅ (snippet_deps !! name).

(** [snippet_categories.get(name) == "type"] and [... == "field"]; a name
    without an entry yields [None] in Python, which equals neither string. *)
Definition is_type (snippet_categories : cat_map) (name : string) : bool :=
  bool_decide (snippet_categories !! name = Some CType).

Definition is_field (snippet_categories : cat_map) (name : string) : bool :=
  bool_decide (snippet_categories !! name = Some CField).

(** Every name that occurs as the target of some edge. Only such names can
    ever be added by a closure, which bounds the number of passes. *)
Definition graph_targets (snippet_deps : dep_graph) : gset string :=
  map_fold (λ _ tgts acc, tgts ∪ acc) ∅ snippet_deps.

(** Python iterates a set in an unspecified order. An [iteration_order]
    picks the list in which a set is visited, separately for every [for]
    statement that runs: the first argument is the number of the current
    pass of the [while] loop, the second is [None] for the outer [for] and
    [Some s] for the inner [for] that visits the edges of snippet [s]. *)
Definition iteration_order := nat → option string → gset string → list string.

(** An order visits the members of the set and nothing else. (Python visits
    each member once; orders that repeat a member are admitted too, the
    results below do not depend on it.) *)
Definition valid_order (order : iteration_order) : Prop :=
  ∀ k ctx (s : gset string) x, x ∈ order k ctx s ↔ x ∈ s.

Definition sorted_order : iteration_order := λ _ _ s, elements s.
Definition reversed_order : iteration_order := λ _ _ s, reverse (elements s).

(** ** Strings and paths *)

(** Python's [needle in hay] on strings. *)
Fixpoint contains (needle hay : string) : bool :=
  String.prefix needle hay
  || match hay with
     | EmptyString => false
     | String _ hay' => contains needle hay'
     end.

(** [s.startswith(p)]. *)
Definition startswith (s p : string) : bool := String.prefix p s.

(** [s.split(sep)] for a one-character separator. *)
Fixpoint split_on (sep : ascii) (s : string) : list string :=
  match s with
  | EmptyString => [EmptyString]
  | String c s' =>
      if Ascii.eqb c sep then EmptyString :: split_on sep s'
      else match split_on sep s' with
           | [] => [String c EmptyString]
           | p :: ps => String c p :: ps
           end
  end.

(** [s.rfind(c)]: position of the last occurrence ([None] for Python's -1). *)
Fixpoint rfind (c : ascii) (s : string) : option nat :=
  match s with
  | EmptyString => None
  | String a s' =>
      match rfind c s' with
      | Some i => Some (S i)
      | None => if Ascii.eqb a c then Some 0 else None
      end
  end.

(** The components [pathlib] keeps of a POSIX path string: the pieces between
    slashes, without the empty ones and without ["."]. *)
Definition path_parts (p : string) : list string :=
  filter (λ part, part ≠ "" ∧ part ≠ ".") (split_on "/" p).

(** [Path(p).name]: the last component, or [""] when there is none. *)
Definition path_name (p : string) : string :=
  List.last (path_parts p) "".

(** [Path(p).stem]: the name without its last suffix. The suffix starts at
    the last dot, unless that dot is the first or the last character of the
    name (the rule of CPython up to 3.13). *)
Definition stem (p : string) : string :=
  let name := path_name p in
  match rfind "." name with
  | Some i =>
      if (0 <? i)%nat && (i <? String.length name - 1)%nat
      then String.substring 0 i name
      else name
  | None => name
  end.

(** The category the script derives from a path string: ["field"] when it
    contains ["/fields/"], else ["type"] when it contains ["/types/"], else
    ["other"]. *)
Definition path_category (p : string) : category :=
  if contains "/fields/" p then CField
  else if contains "/types/" p then CType
  else COther.

(** ** Parsed JSON documents *)

(** What [json.load] returns. Objects keep their entries in document order.
    Numbers are leaves for every walker of the script; integers stand for
    them here. *)
Inductive json : Type :=
  | JNull
  | JBool (b : bool)
  | JNum (n : Z)
  | JStr (s : string)
  | JList (items : list json)
  | JDict (entries : list (string * json)).

(** Python truthiness of a parsed document, as tested by [if content:]. *)
Definition truthy (j : json) : bool :=
  match j with
  | JNull => false
  | JBool b => b
  | JNum n => negb (n =? 0)%Z
  | JStr s => negb (String.eqb s "")
  | JList items => negb (bool_decide (items = []))
  | JDict entries => negb (bool_decide (entries = []))
  end.

(** A [*.json] file found by [rglob]: its path as printed by [str], and what
    [load_json_file] returns for it: [None] when opening or parsing raises
    one of the exceptions the function catches ([JSONDecodeError],
    [FileNotFoundError], [UnicodeDecodeError]). The warning it prints is not
    modelled. A file whose reading raises anything else ends the run; that
    case is the subject of [load_json_file_run] and the definitions built on
    it further down. *)
Record schema_file : Type := SchemaFile {
  file_path : string;
  load_json_file : option json;
}.

(** [if content:] on the result of [load_json_file]. *)
Definition loaded (content : option json) : bool :=
  from_option truthy false content.

(** ** [find_snippet_references] *)

(** One record of the list the extractor returns. *)
Record snippet_ref : Type := SnippetRef {
  ref_snippet : string;
  ref_path : string;
  ref_location : string;
  ref_category : category;
}.

(** The [is_snippet_ref] flag and the [snippet_category] variable after the
    [if]/[elif] that inspects a [$ref] string. *)
Definition ref_flags (is_snippet_file : bool) (filepath value : string)
    : bool * category :=
  let is_snippet_ref := false in
  let snippet_category := COther in
  if contains "snippets" value then
    (true,
     if contains "/fields/" value then CField
     else if contains "/types/" value then CType
     else COther)
  else if is_snippet_file
          && (startswith value "./" || startswith value "../") then
    (true,
     if contains "/fields/" filepath then CField
     else if contains "/types/" filepath then CType
     else snippet_category)
  else (is_snippet_ref, snippet_category).

(** What the body of [if key == "$ref" and isinstance(value, str)] appends. *)
Definition ref_here (is_snippet_file : bool) (filepath current_path : string)
    (key : string) (value : json) : list snippet_ref :=
  match value with
  | JStr v =>
      if String.eqb key "$ref" then
        let '(is_snippet_ref, snippet_category) :=
          ref_flags is_snippet_file filepath v in
        if is_snippet_ref
        then [SnippetRef (stem v) v current_path snippet_category]
        else []
      else []
  | _ => []
  end.

(** [f"{path}.{key}" if path else key] and [f"{path}[{i}]"]. *)
Definition dict_path (path key : string) : string :=
  if String.eqb path "" then key else path ++ "." ++ key.

Definition list_path (path : string) (i : nat) : string :=
  path ++ "[" ++ pretty i ++ "]".

(** [for i, item in enumerate(l)] collecting the lists [f i item]. *)
Definition flat_mapi {A B} (f : nat → A → list B) : nat → list A → list B :=
  fix go i l :=
    match l with
    | [] => []
    | x :: l' => (f i x ++ go (S i) l')%list
    end.

(** The nested [extract_refs]; the records it appends to [refs] are returned
    in the order of the appends. *)
Fixpoint extract_refs (is_snippet_file : bool) (filepath : string)
    (obj : json) (path : string) : list snippet_ref :=
  match obj with
  | JDict entries =>
      entries ≫= (λ '(key, value),
        let current_path := dict_path path key in
        (ref_here is_snippet_file filepath current_path key value
         ++ extract_refs is_snippet_file filepath value current_path)%list)
  | JList items =>
      flat_mapi (λ i item,
                   extract_refs is_snippet_file filepath item (list_path path i))
                0 items
  | _ => []
  end.

Definition find_snippet_references (schema_content : json) (filepath : string)
    : list snippet_ref :=
  let is_snippet_file := contains "snippets" filepath in
  if truthy schema_content
  then extract_refs is_snippet_file filepath schema_content ""
  else [].

(** ** [build_snippet_dependency_graph] *)

(** The three dictionaries the builder returns. *)
Record snippet_graph : Type := SnippetGraph {
  snippet_deps : dep_graph;
  snippet_files : gmap string string;
  snippet_categories : cat_map;
}.

(** [snippet_deps[snippet_name].add(ref['snippet'])] on a [defaultdict(set)]. *)
Definition add_dep (snippet_name : string) (deps : dep_graph) (ref : snippet_ref)
    : dep_graph :=
  <[snippet_name := deps_get deps snippet_name ∪ {[ref_snippet ref]}]> deps.

(** Body of [for snippet_file in snippets_dir.rglob("*.json")]. *)
Definition scan_snippet_file (g : snippet_graph) (snippet_file : schema_file)
    : snippet_graph :=
  let snippet_name := stem (file_path snippet_file) in
  let files := <[snippet_name := file_path snippet_file]> (snippet_files g) in
  let cats :=
    <[snippet_name := path_category (file_path snippet_file)]>
      (snippet_categories g) in
  let content := load_json_file snippet_file in
  let deps :=
    match content with
    | Some c =>
        if truthy c
        then foldl (add_dep snippet_name) (snippet_deps g)
                   (find_snippet_references c (file_path snippet_file))
        else snippet_deps g
    | None => snippet_deps g
    end in
  SnippetGraph deps files cats.

(** [dir_exists] is [snippets_dir.exists()]; [found] is what [rglob] yields,
    in its order. *)
Definition build_snippet_dependency_graph (dir_exists : bool)
    (found : list schema_file) : snippet_graph :=
  if dir_exists then foldl scan_snippet_file (SnippetGraph ∅ ∅ ∅) found
  else SnippetGraph ∅ ∅ ∅.

(** ** The two worklist closures *)

Section closures.
Variable order : iteration_order.
Variable snippet_deps : dep_graph.
Variable snippet_categories : cat_map.

(** *** [find_transitive_type_usage] *)

(** Body of the inner [for referenced_snippet in ...] loop. The state is
    [(new_snippets, transitive_types, changed)]; [used_snippets] is only
    read during a pass. *)
Definition type_visit (used_snippets : gset string)
    (st : gset string * gset string * bool) (referenced_snippet : string)
    : gset string * gset string * bool :=
  let '(new_snippets, transitive_types, changed) := st in
  if decide (referenced_snippet ∉ used_snippets) then
    if is_type snippet_categories referenced_snippet then
      (new_snippets ∪ {[referenced_snippet]},
       transitive_types ∪ {[referenced_snippet]}, true)
    else st
  else st.

(** One iteration of the [while changed] loop, before
    [used_snippets.update(new_snippets)]. *)
Definition type_pass (k : nat) (used_snippets transitive_types : gset string)
    : gset string * gset string * bool :=
  foldl (λ st used_snippet,
           foldl (type_visit used_snippets) st
                 (order k (Some used_snippet) (deps_get snippet_deps used_snippet)))
        (∅, transitive_types, false)
        (order k None used_snippets).

(** The [while changed] loop; [None] means the fuel ran out before the
    loop exited. *)
Fixpoint type_loop (fuel k : nat) (used_snippets transitive_types : gset string)
    : option (gset string * gset string) :=
  match fuel with
  | O => None
  | S fuel' =>
      let '(new_snippets, transitive_types', changed) :=
        type_pass k used_snippets transitive_types in
      let used_snippets' := used_snippets ∪ new_snippets in
      if changed then type_loop fuel' (S k) used_snippets' transitive_types'
      else Some (used_snippets', transitive_types')
  end.

(** Returns [(used_snippets, transitive_types)]. *)
Definition find_transitive_type_usage (direct_used_snippets : gset string)
    : option (gset string * gset string) :=
  type_loop (S (size (graph_targets snippet_deps))) 0 direct_used_snippets ∅.

(** *** [find_transitive_field_issues] *)

(** Body of the inner [for referenced in ...] loop. The state is
    [(all_reachable, transitive_field_issues, changed)]; here
    [all_reachable] is mutated while the pass runs. *)
Definition field_visit (direct_used_snippets : gset string)
    (st : gset string * gset string * bool) (referenced : string)
    : gset string * gset string * bool :=
  let '(all_reachable, transitive_field_issues, changed) := st in
  if decide (referenced ∉ all_reachable) then
    (all_reachable ∪ {[referenced]},
     (if is_field snippet_categories referenced
         && bool_decide (referenced ∉ direct_used_snippets)
      then transitive_field_issues ∪ {[referenced]}
      else transitive_field_issues),
     true)
  else st.

(** One iteration of the [while changed] loop: the outer [for] runs over
    [list(all_reachable)], a snapshot taken when the pass starts. *)
Definition field_pass (k : nat) (direct_used_snippets : gset string)
    (all_reachable transitive_field_issues : gset string)
    : gset string * gset string * bool :=
  foldl (λ st snippet,
           foldl (field_visit direct_used_snippets) st
                 (order k (Some snippet) (deps_get snippet_deps snippet)))
        (all_reachable, transitive_field_issues, false)
        (order k None all_reachable).

Fixpoint field_loop (fuel k : nat) (direct_used_snippets : gset string)
    (all_reachable transitive_field_issues : gset string)
    : option (gset string * gset string) :=
  match fuel with
  | O => None
  | S fuel' =>
      let '(all_reachable', transitive_field_issues', changed) :=
        field_pass k direct_used_snippets all_reachable transitive_field_issues in
      if changed
      then field_loop fuel' (S k) direct_used_snippets
                      all_reachable' transitive_field_issues'
      else Some (all_reachable', transitive_field_issues')
  end.

(** The local [all_reachable] together with the returned set. *)
Definition field_reachability (direct_used_snippets : gset string)
    : option (gset string * gset string) :=
  field_loop (S (size (graph_targets snippet_deps))) 0
             direct_used_snippets direct_used_snippets ∅.

(** Returns [transitive_field_issues]. *)
Definition find_transitive_field_issues (direct_used_snippets : gset string)
    : option (gset string) :=
  snd <$> field_reachability direct_used_snippets.

End closures.

(** ** [analyze_schemas] *)

(** The part of the file system the script reads: every [*.json] file below
    [schemas/] in [rglob] order, and whether [schemas/snippets] exists. *)
Record schema_tree : Type := SchemaTree {
  snippets_dir_exists : bool;
  schema_files : list schema_file;
}.

(** [snippets_dir.rglob("*.json")]. *)
Definition snippets_rglob (tree : schema_tree) : list schema_file :=
  filter (λ f, startswith (file_path f) "schemas/snippets/" = true)
         (schema_files tree).

(** The files kept in [source_schemas]. *)
Definition source_schemas (tree : schema_tree) : list schema_file :=
  filter (λ f, contains "assembled" (file_path f) = false
               ∧ contains "snippets" (file_path f) = false)
         (schema_files tree).

(** Body of [for schema_file in source_schemas], restricted to
    [direct_used_snippets]. *)
Definition collect_direct (direct_used_snippets : gset string)
    (schema_file : schema_file) : gset string :=
  match load_json_file schema_file with
  | Some c =>
      if truthy c
      then foldl (λ acc ref, acc ∪ {[ref_snippet ref]}) direct_used_snippets
                 (find_snippet_references c (file_path schema_file))
      else direct_used_snippets
  | None => direct_used_snippets
  end.

(** The sets handed to [generate_report]. *)
Record usage_sets : Type := UsageSets {
  direct_used_snippets : gset string;
  all_used_snippets : gset string;
  transitive_types : gset string;
  transitive_field_issues : gset string;
  orphaned_snippets : gset string;
}.

(** Lines 263-274 of the script: the two closures and the orphan set. *)
Definition compute_usage (order : iteration_order)
    (deps : dep_graph) (cats : cat_map)
    (all_snippets direct : gset string) : option usage_sets :=
  '(all_used, trans) ← find_transitive_type_usage order deps cats direct;
  issues ← find_transitive_field_issues order deps cats direct;
  Some (UsageSets direct all_used trans issues (all_snippets ∖ all_used)).

Definition analyze_schemas (order : iteration_order) (tree : schema_tree)
    : option usage_sets :=
  let g := build_snippet_dependency_graph (snippets_dir_exists tree)
                                          (snippets_rglob tree) in
  let all_snippets := dom (snippet_files g) in
  let direct := foldl collect_direct ∅ (source_schemas tree) in
  compute_usage order (snippet_deps g) (snippet_categories g) all_snippets direct.

(** ** Notions used to state the properties *)

Section closure_sets.
Variable snippet_deps : dep_graph.
Variable snippet_categories : cat_map.

(** Targets of the edges that leave a set of snippets. *)
Definition successors (s : gset string) : gset string :=
  set_bind (deps_get snippet_deps) s.

(** What one pass of the type-restricted loop puts into [new_snippets]. *)
Definition type_frontier (used : gset string) : gset string :=
  filter (λ y, is_type snippet_categories y = true) (successors used ∖ used).

(** The same, counted over the list of edge targets a pass visits. *)
Definition type_hits (used : gset string) (l : list string) : gset string :=
  filter (λ y, is_type snippet_categories y = true)
         (list_to_set l ∖ used).

(** The fields among [s] that are not directly used. *)
Definition flagged (direct s : gset string) : gset string :=
  filter (λ y, is_field snippet_categories y = true ∧ y ∉ direct) s.

(** Unrestricted reachability along edges, starting from a set. *)
Inductive reachable (start : gset string) : string → Prop :=
  | reach_start x : x ∈ start → reachable start x
  | reach_step x y :
      reachable start x → y ∈ deps_get snippet_deps x → reachable start y.

(** Reachability in which every edge followed ends in a type snippet. *)
Inductive type_reachable (start : gset string) : string → Prop :=
  | treach_start x : x ∈ start → type_reachable start x
  | treach_step x y :
      type_reachable start x → y ∈ deps_get snippet_deps x →
      snippet_categories !! y = Some CType → type_reachable start y.
End closure_sets.

(** The names one snippet file contributes as edge targets. *)
Definition file_targets (f : schema_file) : gset string :=
  match load_json_file f with
  | Some c =>
      if truthy c
      then list_to_set (ref_snippet <$> find_snippet_references c (file_path f))
      else ∅
  | None => ∅
  end.

(** The files of a scan that share a stem. *)
Definition files_named (n : string) (found : list schema_file) : list schema_file :=
  filter (λ f, stem (file_path f) = n) found.

(** A string [v] sits under a ["$ref"] key somewhere in a document. *)
Inductive ref_value_in : json → string → Prop :=
  | rv_here entries v :
      ("$ref", JStr v) ∈ entries → ref_value_in (JDict entries) v
  | rv_dict entries key value v :
      (key, value) ∈ entries → ref_value_in value v →
      ref_value_in (JDict entries) v
  | rv_list items item v :
      item ∈ items → ref_value_in item v → ref_value_in (JList items) v.

(** The classification rule in the words of the specification: the snippet
    name and category of a reference string, or [None] when the string is
    not a snippet reference. *)
Definition spec_classify (current_file value : string)
    : option (string * category) :=
  if contains "snippets" value then
    Some (stem value,
          if contains "/fields/" value then CField
          else if contains "/types/" value then CType
          else COther)
  else if contains "snippets" current_file
          && (startswith value "./" || startswith value "../") then
    Some (stem value, path_category current_file)
  else None.

(** ** Inputs used as examples *)

(** The scenario of the specification: type snippets A and B with A
    referencing B, field snippets F and G, and one source schema that
    references A and G. *)
Definition scenario_tree : schema_tree :=
  SchemaTree true
    [ SchemaFile "schemas/snippets/types/A.json"
        (Some (JDict [("type", JStr "object");
                      ("properties",
                       JDict [("b", JDict [("$ref", JStr "./B.json")])])]));
      SchemaFile "schemas/snippets/types/B.json"
        (Some (JDict [("type", JStr "string")]));
      SchemaFile "schemas/snippets/fields/F.json"
        (Some (JDict [("type", JStr "string")]));
      SchemaFile "schemas/snippets/fields/G.json"
        (Some (JDict [("type", JStr "string")]));
      SchemaFile "schemas/entities/Thing.json"
        (Some (JDict [("properties",
                       JDict [("a", JDict [("$ref",
                                            JStr "../snippets/types/A.json")]);
                              ("g", JDict [("$ref",
                                            JStr "../snippets/fields/G.json")])])])) ].

Definition scenario_deps : dep_graph := {[ "A" := {[ "B" ]} ]}.

Definition scenario_categories : cat_map :=
  {[ "A" := CType; "B" := CType; "F" := CField; "G" := CField ]}.

(** The cycle A→B→A. *)
Definition cycle_deps : dep_graph := {[ "A" := {[ "B" ]}; "B" := {[ "A" ]} ]}.

(** Categories for the cycle in which B is a field snippet. *)
Definition cycle_field_categories : cat_map := {[ "A" := CType; "B" := CField ]}.

(** A type snippet T that references a field snippet F. *)
Definition field_via_type_deps : dep_graph := {[ "T" := {[ "F" ]} ]}.

Definition field_via_type_categories : cat_map :=
  {[ "T" := CType; "F" := CField ]}.

(** A directly used snippet A of category other that references a type B and
    a field C, and an unused snippet O of category other that references the
    type T. *)
Definition mixed_deps : dep_graph :=
  {[ "A" := {[ "B"; "C" ]}; "O" := {[ "T" ]} ]}.

Definition mixed_categories : cat_map :=
  {[ "A" := COther; "B" := CType; "C" := CField; "O" := COther; "T" := CType ]}.

(** Two snippet files with the stem "Name". *)
Definition name_as_type : schema_file :=
  SchemaFile "schemas/snippets/types/Name.json"
    (Some (JDict [("$ref", JStr "./X.json")])).

Definition name_as_field : schema_file :=
  SchemaFile "schemas/snippets/fields/Name.json"
    (Some (JDict [("items", JList [JDict [("$ref", JStr "./Y.json")]])])).

(** ** [count_inline_definitions] *)

(** The [patterns] dictionary; its four keys are always present. *)
Record pattern_counts : Type := PatternCounts {
  type_definitions : nat;
  enum_definitions : nat;
  constraint_patterns : nat;
  property_patterns : nat;
}.

(** [key in obj] for a dictionary. *)
Definition has_key (key : string) (entries : list (string * json)) : bool :=
  bool_decide (key ∈ entries.*1).

(** The four keys counted as common property patterns. *)
Definition property_keys : list string :=
  ["entity_type"; "status"; "description"; "entity_id"].

(** What [count_patterns] does at one dictionary before it descends into
    the values. The state is [(inline_count, patterns)]. *)
Definition count_node (entries : list (string * json))
    (st : nat * pattern_counts) : nat * pattern_counts :=
  let '(inline_count, p) := st in
  let '(inline_count, p) :=
    if has_key "type" entries && has_key "properties" entries
    then (S inline_count,
          PatternCounts (S (type_definitions p)) (enum_definitions p)
                        (constraint_patterns p) (property_patterns p))
    else (inline_count, p) in
  let '(inline_count, p) :=
    if has_key "enum" entries
    then (S inline_count,
          PatternCounts (type_definitions p) (S (enum_definitions p))
                        (constraint_patterns p) (property_patterns p))
    else (inline_count, p) in
  let '(inline_count, p) :=
    if has_key "minimum" entries || has_key "maximum" entries
    then (S inline_count,
          PatternCounts (type_definitions p) (enum_definitions p)
                        (S (constraint_patterns p)) (property_patterns p))
    else (inline_count, p) in
  foldl (λ '(inline_count, p) key,
           if has_key key entries
           then (inline_count,
                 PatternCounts (type_definitions p) (enum_definitions p)
                               (constraint_patterns p) (S (property_patterns p)))
           else (inline_count, p))
        (inline_count, p) property_keys.

(** The nested [count_patterns], threading the two counters it mutates. *)
Fixpoint count_patterns (obj : json) (st : nat * pattern_counts)
    : nat * pattern_counts :=
  match obj with
  | JDict entries =>
      foldl (λ st' entry, count_patterns entry.2 st') (count_node entries st)
            entries
  | JList items => foldl (λ st' item, count_patterns item st') st items
  | _ => st
  end.

Definition count_inline_definitions (schema_content : json)
    : nat * pattern_counts :=
  let st := (0, PatternCounts 0 0 0 0) in
  if truthy schema_content then count_patterns schema_content st else st.

(** ** The loop over the source schemas *)

(** An entry of a [snippet_usage] list. *)
Record usage_site : Type := UsageSite {
  site_file : string;
  site_location : string;
  site_path : string;
  site_category : category;
}.

(** [patterns.items()]. *)
Definition patterns_items (p : pattern_counts) : list (string * nat) :=
  [("type_definitions", type_definitions p);
   ("enum_definitions", enum_definitions p);
   ("constraint_patterns", constraint_patterns p);
   ("property_patterns", property_patterns p)].

(** [counter[key]] on a [Counter]: a missing key counts as zero. *)
Definition counter_get (counter : gmap string nat) (key : string) : nat :=
  default 0 (counter !! key).

(** Everything the loop over [source_schemas] accumulates. *)
Record source_scan : Type := SourceScan {
  scan_direct_used : gset string;
  scan_snippet_usage : gmap string (list usage_site);
  scan_total_references : nat;
  scan_total_inline : nat;
  scan_inline_counts : gmap string (nat * pattern_counts);
  scan_constraint_patterns : gmap string nat;
}.

Definition empty_scan : source_scan := SourceScan ∅ ∅ 0 0 ∅ ∅.

(** Body of [for ref in refs]:
    [direct_used_snippets.add(...)] and [snippet_usage[...].append(...)]. *)
Definition record_usage (file : string)
    (st : gset string * gmap string (list usage_site)) (ref : snippet_ref)
    : gset string * gmap string (list usage_site) :=
  let '(direct, usage) := st in
  (direct ∪ {[ref_snippet ref]},
   <[ref_snippet ref :=
       (default [] (usage !! ref_snippet ref)
        ++ [UsageSite file (ref_location ref) (ref_path ref)
                      (ref_category ref)])%list]>
     usage).

(** Body of [for schema_file in source_schemas]. *)
Definition scan_source_schema (s : source_scan) (schema_file : schema_file)
    : source_scan :=
  match load_json_file schema_file with
  | Some c =>
      if truthy c then
        let refs := find_snippet_references c (file_path schema_file) in
        let '(direct, usage) :=
          foldl (record_usage (file_path schema_file))
                (scan_direct_used s, scan_snippet_usage s) refs in
        let '(inline_count, patterns) := count_inline_definitions c in
        SourceScan direct usage
          (scan_total_references s + List.length refs)
          (scan_total_inline s + inline_count)
          (<[file_path schema_file := (inline_count, patterns)]>
             (scan_inline_counts s))
          (foldl (λ counter '(pattern_type, count),
                    <[pattern_type := counter_get counter pattern_type + count]>
                      counter)
                 (scan_constraint_patterns s) (patterns_items patterns))
      else s
  | None => s
  end.

Definition scan_source_schemas (tree : schema_tree) : source_scan :=
  foldl scan_source_schema empty_scan (source_schemas tree).

(** [sum(len(usages) for usages in snippet_usage.values())]. *)
Definition usage_total (usage : gmap string (list usage_site)) : nat :=
  map_fold (λ _ sites acc, List.length sites + acc) 0 usage.

(** ** Category breakdown and report helpers *)

(** [{s for s, cat in snippet_categories.items() if cat == c}]. *)
Definition snippets_of_category (cats : cat_map) (c : category) : gset string :=
  dom (filter (λ kv : string * category, kv.2 = c) cats).

(** [{s for s in names if snippet_categories.get(s) == c}], the sets the
    report lists for the directly used and for the orphaned snippets. *)
Definition with_category (cats : cat_map) (c : category) (names : gset string)
    : gset string :=
  filter (λ s, cats !! s = Some c) names.

(** [[s for s, deps in snippet_deps.items() if snippet in deps]], the list
    the report prints for a transitively used field. The list follows the
    key order of the map, where Python follows insertion order. *)
Definition referencing_snippets (deps : dep_graph) (snippet : string)
    : list string :=
  (filter (λ kv : string * gset string, snippet ∈ kv.2) (map_to_list deps)).*1.

(** The same list restricted to directly used snippets, printed for a
    transitively used type. *)
Definition direct_referencing_snippets (deps : dep_graph)
    (direct : gset string) (snippet : string) : list string :=
  (filter (λ kv : string * gset string, snippet ∈ kv.2 ∧ kv.1 ∈ direct)
          (map_to_list deps)).*1.

(** The two alternatives of the report line for a transitively used field. *)
Inductive field_issue_line : Type :=
  | UsedVia (referrers : list string)
  | IndirectUsage.

(** [if referencing_snippets: ... else: ...] in the report section on
    transitively used fields. *)
Definition report_field_issue (deps : dep_graph) (snippet : string)
    : field_issue_line :=
  match referencing_snippets deps snippet with
  | [] => IndirectUsage
  | referrers => UsedVia referrers
  end.

(** ** Further notions used to state the properties *)

(** Number of objects in a document. *)
Fixpoint dict_nodes (obj : json) : nat :=
  match obj with
  | JDict entries => S (foldr (λ entry acc, dict_nodes entry.2 + acc) 0 entries)
  | JList items => foldr (λ item acc, dict_nodes item + acc) 0 items
  | _ => 0
  end.

(** A string without a given character. *)
Fixpoint lacks (c : ascii) (s : string) : bool :=
  match s with
  | EmptyString => true
  | String a s' => negb (Ascii.eqb a c) && lacks c s'
  end.

(** A file name component: not empty, no slash and no dot. *)
Definition plain_name (s : string) : bool :=
  negb (String.eqb s "") && lacks "/" s && lacks "." s.

(** Every entry of [snippet_deps] is a non-empty set under a registered name. *)
Definition deps_entries_ok (g : snippet_graph) : Prop :=
  ∀ n tg, snippet_deps g !! n = Some tg →
          tg ≠ ∅ ∧ is_Some (snippet_files g !! n).

(** The [patterns] dictionary after its four counters have grown. *)
Definition pc_add (p : pattern_counts) (a b c d : nat) : pattern_counts :=
  PatternCounts (type_definitions p + a) (enum_definitions p + b)
                (constraint_patterns p + c) (property_patterns p + d).

(** Every [snippet_usage] list has at least one entry. *)
Definition usage_lists_nonempty (usage : gmap string (list usage_site)) : Prop :=
  ∀ n sites, usage !! n = Some sites → sites ≠ [].

(** What the loop over the source schemas keeps true of its accumulators. *)
Definition scan_consistent (s : source_scan) : Prop :=
  dom (scan_snippet_usage s) = scan_direct_used s ∧
  usage_lists_nonempty (scan_snippet_usage s) ∧
  usage_total (scan_snippet_usage s) = scan_total_references s ∧
  scan_total_inline s
    = (counter_get (scan_constraint_patterns s) "type_definitions"
       + counter_get (scan_constraint_patterns s) "enum_definitions"
       + counter_get (scan_constraint_patterns s) "constraint_patterns")%nat.

(** The stems of a list of files, in order. *)
Definition stems (found : list schema_file) : list string :=
  (λ f, stem (file_path f)) <$> found.

(** ** Exceptions that escape a run *)

(** The exceptions that opening and parsing a file, or building the report,
    can raise. The first three are the ones [load_json_file] catches. *)
Inductive exception : Type :=
  | JSONDecodeError
  | FileNotFoundError
  | UnicodeDecodeError
  | PermissionError
  | IsADirectoryError
  | RecursionError
  | ValueError
  | ZeroDivisionError.

(** A call either returns a value or raises. *)
Inductive outcome (A : Type) : Type :=
  | Returns (a : A)
  | Raises (e : exception).
Arguments Returns {A} a.
Arguments Raises {A} e.

(** The tuple of the [except] clause of [load_json_file]. *)
Definition caught_by_load (e : exception) : bool :=
  match e with
  | JSONDecodeError | FileNotFoundError | UnicodeDecodeError => true
  | _ => false
  end.

(** [load_json_file] with its [try]/[except]: the argument is what [open]
    followed by [json.load] does for the file. A caught exception becomes
    the result [None]; any other exception leaves the function. *)
Definition load_json_file_run (read : outcome json) : outcome (option json) :=
  match read with
  | Returns content => Returns (Some content)
  | Raises e => if caught_by_load e then Returns None else Raises e
  end.

(** A [*.json] path found by [rglob] together with what reading it does. *)
Record disk_file : Type := DiskFile {
  disk_path : string;
  disk_read : outcome json;
}.

(** The file as the rest of a run sees it when its load does not raise. *)
Definition loaded_file (f : disk_file) : schema_file :=
  SchemaFile (disk_path f)
    (match load_json_file_run (disk_read f) with
     | Returns content => content
     | Raises _ => None
     end).

(** A [for] loop whose body may raise: the first exception ends the loop and
    the accumulated state is lost. *)
Fixpoint foldl_run {A B} (body : A → B → outcome A) (a : A) (l : list B)
    : outcome A :=
  match l with
  | [] => Returns a
  | x :: l' =>
      match body a x with
      | Returns a' => foldl_run body a' l'
      | Raises e => Raises e
      end
  end.

(** Body of [for snippet_file in snippets_dir.rglob("*.json")] with the
    exceptions of line 95: the name and the category are stored before the
    load, but an exception leaves [build_snippet_dependency_graph] and its
    local dictionaries with it. *)
Definition scan_snippet_file_run (g : snippet_graph) (f : disk_file)
    : outcome snippet_graph :=
  match load_json_file_run (disk_read f) with
  | Returns content => Returns (scan_snippet_file g (SchemaFile (disk_path f) content))
  | Raises e => Raises e
  end.

Definition build_snippet_dependency_graph_run (dir_exists : bool)
    (found : list disk_file) : outcome snippet_graph :=
  if dir_exists
  then foldl_run scan_snippet_file_run (SnippetGraph ∅ ∅ ∅) found
  else Returns (SnippetGraph ∅ ∅ ∅).

(** Body of [for schema_file in source_schemas] with the exceptions of
    line 234. *)
Definition scan_source_schema_run (s : source_scan) (f : disk_file)
    : outcome source_scan :=
  match load_json_file_run (disk_read f) with
  | Returns content => Returns (scan_source_schema s (SchemaFile (disk_path f) content))
  | Raises e => Raises e
  end.

(** The one operation of [generate_report] that can raise: the division
    [total_references/total_schemas] of line 556. The sets stand for the
    report that is built from them. *)
Definition generate_report_run (total_schemas : nat) (sets : usage_sets)
    : outcome usage_sets :=
  if (total_schemas =? 0)%nat then Raises ZeroDivisionError else Returns sets.

(** The files below [schemas/] with what reading each of them does. *)
Record disk_tree : Type := DiskTree {
  disk_snippets_dir_exists : bool;
  disk_files : list disk_file;
}.

Definition disk_snippets_rglob (tree : disk_tree) : list disk_file :=
  filter (λ f, startswith (disk_path f) "schemas/snippets/" = true)
         (disk_files tree).

Definition disk_source_schemas (tree : disk_tree) : list disk_file :=
  filter (λ f, contains "assembled" (disk_path f) = false
               ∧ contains "snippets" (disk_path f) = false)
         (disk_files tree).

(** [analyze_schemas] with the exceptions that can leave it: a load that
    raises in the builder (line 202) or in the loop over the source schemas
    (line 234), and the division in [generate_report] (line 278). [None]
    means that a closure ran out of fuel. *)
Definition analyze_schemas_run (order : iteration_order) (tree : disk_tree)
    : option (outcome usage_sets) :=
  match build_snippet_dependency_graph_run (disk_snippets_dir_exists tree)
                                           (disk_snippets_rglob tree) with
  | Raises e => Some (Raises e)
  | Returns g =>
      let sources := disk_source_schemas tree in
      match foldl_run scan_source_schema_run empty_scan sources with
      | Raises e => Some (Raises e)
      | Returns scan =>
          match compute_usage order (snippet_deps g) (snippet_categories g)
                              (dom (snippet_files g)) (scan_direct_used scan) with
          | Some sets => Some (generate_report_run (List.length sources) sets)
          | None => None
          end
      end
  end.

(** The first exception that a load lets through, in scan order. *)
Fixpoint first_uncaught (found : list disk_file) : option exception :=
  match found with
  | [] => None
  | f :: found' =>
      match load_json_file_run (disk_read f) with
      | Raises e => Some e
      | Returns _ => first_uncaught found'
      end
  end.

(** A tree with one source schema and no snippets directory. *)
Definition no_snippets_tree : disk_tree :=
  DiskTree false
    [ DiskFile "schemas/entities/Thing.json"
        (Returns (JDict [("properties",
                          JDict [("a", JDict [("$ref",
                                               JStr "../snippets/types/A.json")])])]));
      DiskFile "schemas/entities/Broken.json" (Raises JSONDecodeError) ].


(** A snippet file with invalid JSON after a loadable one. *)
Definition broken_snippet_files : list disk_file :=
  [ DiskFile "schemas/snippets/types/A.json"
      (Returns (JDict [("$ref", JStr "./B.json")]));
    DiskFile "schemas/snippets/fields/F.json" (Raises JSONDecodeError) ].

(** * Properties *)

(** ** Set-level description of one pass *)

Section closure_facts.
Variable snippet_deps : dep_graph.
Variable snippet_categories : cat_map.

Local Abbreviation succs := (successors snippet_deps).
Local Abbreviation frontier := (type_frontier snippet_deps snippet_categories).
Local Abbreviation hits := (type_hits snippet_categories).
Local Abbreviation flag := (flagged snippet_categories).
Local Abbreviation ureach := (reachable snippet_deps).
Local Abbreviation treach := (type_reachable snippet_deps snippet_categories).

Lemma elem_of_successors s y :
  y ∈ succs s ↔ ∃ x, x ∈ s ∧ y ∈ deps_get snippet_deps x.
Proof. unfold successors. rewrite elem_of_set_bind. naive_solver. Qed.

Lemma is_type_true y :
  is_type snippet_categories y = true ↔ snippet_categories !! y = Some CType.
Proof. unfold is_type. by rewrite bool_decide_eq_true. Qed.

Lemma is_field_true y :
  is_field snippet_categories y = true ↔ snippet_categories !! y = Some CField.
Proof. unfold is_field. by rewrite bool_decide_eq_true. Qed.

Lemma elem_of_type_frontier used y :
  y ∈ frontier used ↔
  y ∉ used ∧ snippet_categories !! y = Some CType ∧
  ∃ x, x ∈ used ∧ y ∈ deps_get snippet_deps x.
Proof.
  unfold type_frontier.
  rewrite elem_of_filter, elem_of_difference, elem_of_successors, is_type_true.
  naive_solver.
Qed.

Lemma elem_of_flagged direct s y :
  y ∈ flag direct s ↔
  snippet_categories !! y = Some CField ∧ y ∉ direct ∧ y ∈ s.
Proof.
  unfold flagged. rewrite elem_of_filter, is_field_true. naive_solver.
Qed.

Lemma deps_get_targets x y :
  y ∈ deps_get snippet_deps x → y ∈ graph_targets snippet_deps.
Proof.
  unfold deps_get, graph_targets.
  revert x y. generalize snippet_deps.
  apply (map_fold_weak_ind
           (λ (r : gset string) (m : dep_graph),
              ∀ x y, y ∈ default ∅ (m !! x) → y ∈ r)).
  - intros x y. rewrite lookup_empty. set_solver.
  - intros i tg m r Hi IH x y.
    destruct (decide (i = x)) as [->|Hne].
    + rewrite lookup_insert_eq. set_solver.
    + rewrite lookup_insert_ne by done. intros Hy. set_solver.
Qed.

Lemma successors_targets s : succs s ⊆ graph_targets snippet_deps.
Proof.
  intros y [x [_ Hy]]%elem_of_successors. by eapply deps_get_targets.
Qed.

(** *** The type-restricted pass *)

Section with_order.
Variable order : iteration_order.
Hypothesis order_ok : valid_order order.

Lemma type_visit_foldl used l new trans ch :
  foldl (type_visit snippet_categories used) (new, trans, ch) l =
  (new ∪ hits used l, trans ∪ hits used l,
   ch || bool_decide (hits used l ≠ ∅)).
Proof.
  revert new trans ch.
  induction l as [|y l IH]; intros new trans ch; simpl.
  - assert (hits used [] = ∅) as ->.
    { unfold type_hits. set_solver. }
    rewrite !(right_id_L ∅ (∪)).
    rewrite bool_decide_eq_false_2 by (intros H; by apply H).
    by rewrite orb_false_r.
  - destruct (decide (y ∉ used)) as [Hy|Hy];
      [destruct (is_type snippet_categories y) eqn:Hty|].
    + replace (type_visit snippet_categories used (new, trans, ch) y)
        with (new ∪ {[y]}, trans ∪ {[y]}, true)
        by (unfold type_visit; rewrite decide_True by done; by rewrite Hty).
      rewrite IH.
      assert (hits used (y :: l) = {[y]} ∪ hits used l) as ->.
      { apply set_eq. intros z. unfold type_hits.
        rewrite elem_of_union, !elem_of_filter, !elem_of_difference,
          elem_of_singleton, list_to_set_cons, elem_of_union, elem_of_singleton.
        naive_solver. }
      rewrite !(assoc_L (∪)).
      rewrite (bool_decide_eq_true_2 (_ ∪ _ ≠ ∅)) by set_solver.
      by rewrite orb_true_r.
    + replace (type_visit snippet_categories used (new, trans, ch) y)
        with (new, trans, ch)
        by (unfold type_visit; rewrite decide_True by done; by rewrite Hty).
      rewrite IH.
      assert (hits used (y :: l) = hits used l) as ->; [|done].
      apply set_eq. intros z. unfold type_hits.
      rewrite !elem_of_filter, !elem_of_difference, list_to_set_cons,
        elem_of_union, elem_of_singleton.
      split; [|naive_solver].
      intros [Hz [[->|Hz'] Hnu]]; [congruence|done].
    + replace (type_visit snippet_categories used (new, trans, ch) y)
        with (new, trans, ch)
        by (unfold type_visit; by rewrite decide_False by done).
      rewrite IH.
      assert (hits used (y :: l) = hits used l) as ->; [|done].
      apply set_eq. intros z. unfold type_hits.
      rewrite !elem_of_filter, !elem_of_difference, list_to_set_cons,
        elem_of_union, elem_of_singleton.
      split; [|naive_solver].
      intros [Hz [[->|Hz'] Hnu]]; [|done].
      exfalso. apply Hy. done.
Qed.

Lemma type_hits_app used l1 l2 :
  hits used (l1 ++ l2) = hits used l1 ∪ hits used l2.
Proof.
  apply set_eq. intros z. unfold type_hits.
  rewrite elem_of_union, !elem_of_filter, !elem_of_difference,
    list_to_set_app_L, elem_of_union.
  naive_solver.
Qed.

Lemma type_outer_foldl k used us new trans ch :
  let edges := us ≫= (λ u, order k (Some u) (deps_get snippet_deps u)) in
  foldl (λ st u, foldl (type_visit snippet_categories used) st
                       (order k (Some u) (deps_get snippet_deps u)))
        (new, trans, ch) us =
  (new ∪ hits used edges, trans ∪ hits used edges,
   ch || bool_decide (hits used edges ≠ ∅)).
Proof.
  revert new trans ch.
  induction us as [|u us IH]; intros new trans ch; simpl.
  - apply (type_visit_foldl used [] new trans ch).
  - rewrite type_visit_foldl. simpl in IH. rewrite IH.
    rewrite type_hits_app, !(assoc_L (∪)).
    rewrite <-orb_assoc. do 2 f_equal.
    apply eq_true_iff_eq.
    rewrite orb_true_iff, !bool_decide_eq_true.
    split.
    + intros [H|H]; set_solver.
    + intros H.
      destruct (decide (hits used (order k (Some u) (deps_get snippet_deps u)) = ∅))
        as [He|He]; [right|by left].
      rewrite He in H. by rewrite (left_id_L ∅ (∪)) in H.
Qed.

Lemma type_hits_edges k used :
  hits used (order k None used ≫= (λ u, order k (Some u) (deps_get snippet_deps u)))
  = frontier used.
Proof.
  apply set_eq. intros y. unfold type_hits, type_frontier.
  rewrite !elem_of_filter, !elem_of_difference, elem_of_successors,
    elem_of_list_to_set, list_elem_of_bind.
  split.
  - intros [Hty [[x [Hy Hx]] Hnu]]. split; [done|]. split; [|done].
    exists x. split; [by apply (order_ok k None)|by apply (order_ok k (Some x))].
  - intros [Hty [[x [Hx Hy]] Hnu]]. split; [done|]. split; [|done].
    exists x. split; [by apply (order_ok k (Some x))|by apply (order_ok k None)].
Qed.

Lemma type_pass_valid k used trans :
  type_pass order snippet_deps snippet_categories k used trans =
  (frontier used, trans ∪ frontier used,
   bool_decide (frontier used ≠ ∅)).
Proof.
  unfold type_pass. rewrite type_outer_foldl. cbv zeta.
  rewrite type_hits_edges. by rewrite (left_id_L ∅ (∪)).
Qed.

(** *** The unrestricted pass *)

Lemma triple_eq {A B C} (a a' : A) (b b' : B) (c c' : C) :
  a = a' → b = b' → c = c' → (a, b, c) = (a', b', c').
Proof. by intros -> -> ->. Qed.

Lemma field_visit_foldl direct l r i ch :
  foldl (field_visit snippet_categories direct) (r, i, ch) l =
  (r ∪ list_to_set l, i ∪ flag direct (list_to_set l ∖ r),
   ch || bool_decide (¬ list_to_set (C := gset string) l ⊆ r)).
Proof.
  revert r i ch.
  induction l as [|y l IH]; intros r i ch; cbn [foldl].
  - apply triple_eq.
    + set_solver.
    + apply set_eq. intros z. rewrite elem_of_union, elem_of_flagged. set_solver.
    + rewrite bool_decide_eq_false_2 by set_solver. by rewrite orb_false_r.
  - destruct (decide (y ∉ r)) as [Hy|Hy].
    + assert (field_visit snippet_categories direct (r, i, ch) y =
              (r ∪ {[y]},
               (if is_field snippet_categories y && bool_decide (y ∉ direct)
                then i ∪ {[y]} else i), true)) as ->
        by (unfold field_visit; by rewrite decide_True).
      rewrite IH. apply triple_eq.
      * set_solver.
      * apply set_eq. intros z.
        destruct (is_field snippet_categories y) eqn:Hf;
          [destruct (decide (y ∉ direct)) as [Hd|Hd]|]; cbn [andb].
        -- rewrite bool_decide_eq_true_2 by done.
           apply is_field_true in Hf. rewrite list_to_set_cons.
           rewrite !elem_of_union, !elem_of_flagged, !elem_of_difference,
             !elem_of_union, elem_of_singleton.
           destruct (decide (z = y)) as [->|Hne]; naive_solver.
        -- rewrite bool_decide_eq_false_2 by done. rewrite list_to_set_cons.
           rewrite !elem_of_union, !elem_of_flagged, !elem_of_difference,
             !elem_of_union, elem_of_singleton.
           destruct (decide (z = y)) as [->|Hne]; naive_solver.
        -- assert (snippet_categories !! y ≠ Some CField) as Hnf.
           { intros Hc. apply is_field_true in Hc. congruence. }
           rewrite list_to_set_cons.
           rewrite !elem_of_union, !elem_of_flagged, !elem_of_difference,
             !elem_of_union, elem_of_singleton.
           destruct (decide (z = y)) as [->|Hne]; naive_solver.
      * rewrite (bool_decide_eq_true_2 (¬ list_to_set (y :: l) ⊆ r))
          by set_solver.
        by rewrite orb_true_r.
    + assert (field_visit snippet_categories direct (r, i, ch) y = (r, i, ch))
        as -> by (unfold field_visit; by rewrite decide_False).
      rewrite IH.
      assert (y ∈ r) as Hin by (by apply dec_stable).
      apply triple_eq.
      * set_solver.
      * f_equal. apply set_eq. intros z. rewrite list_to_set_cons.
        rewrite !elem_of_flagged, !elem_of_difference, elem_of_union,
          elem_of_singleton.
        destruct (decide (z = y)) as [->|Hne]; naive_solver.
      * f_equal. apply bool_decide_ext. set_solver.
Qed.

Lemma field_outer_foldl k direct us r i ch :
  let edges : gset string :=
    list_to_set (us ≫= (λ u, order k (Some u) (deps_get snippet_deps u))) in
  foldl (λ st u, foldl (field_visit snippet_categories direct) st
                       (order k (Some u) (deps_get snippet_deps u)))
        (r, i, ch) us =
  (r ∪ edges, i ∪ flag direct (edges ∖ r),
   ch || bool_decide (¬ edges ⊆ r)).
Proof.
  revert r i ch.
  induction us as [|u us IH]; intros r i ch; cbn [foldl].
  - apply (field_visit_foldl direct [] r i ch).
  - rewrite field_visit_foldl. cbv zeta in IH. rewrite IH.
    rewrite bind_cons, list_to_set_app_L. clear IH.
    set (L := list_to_set (order k (Some u) (deps_get snippet_deps u)) : gset string).
    set (T := list_to_set (us ≫= _) : gset string).
    clearbody L T.
    rewrite <-orb_assoc. apply triple_eq.
    + set_solver.
    + apply set_eq. intros z.
      rewrite !elem_of_union, !elem_of_flagged, !elem_of_difference,
        !elem_of_union.
      destruct (decide (z ∈ L)); naive_solver.
    + f_equal. apply eq_true_iff_eq.
      rewrite orb_true_iff, !bool_decide_eq_true.
      split.
      * intros [H|H]; set_solver.
      * intros H. destruct (decide (L ⊆ r)); [right|by left]. set_solver.
Qed.

Lemma field_edges k r :
  list_to_set (order k None r ≫= (λ u, order k (Some u) (deps_get snippet_deps u)))
  = succs r.
Proof.
  apply set_eq. intros y.
  rewrite elem_of_list_to_set, list_elem_of_bind, elem_of_successors.
  split; intros [x [H1 H2]]; exists x;
    (split; [by apply (order_ok k (Some x))|by apply (order_ok k None)])
    || (split; [by apply (order_ok k None)|by apply (order_ok k (Some x))]).
Qed.

Lemma field_pass_valid k direct r i :
  field_pass order snippet_deps snippet_categories k direct r i =
  (r ∪ succs r, i ∪ flag direct (succs r ∖ r),
   bool_decide (¬ succs r ⊆ r)).
Proof.
  unfold field_pass. rewrite field_outer_foldl. cbv zeta.
  by rewrite field_edges.
Qed.

(** *** The loops *)

Lemma type_reachable_mono s1 s2 y :
  (∀ x, x ∈ s1 → treach s2 x) →
  treach s1 y → treach s2 y.
Proof.
  intros Hs. induction 1 as [x Hx|x y _ IH Hy Hc]; [by apply Hs|].
  by eapply treach_step.
Qed.

Lemma reachable_mono s1 s2 y :
  (∀ x, x ∈ s1 → ureach s2 x) → ureach s1 y → ureach s2 y.
Proof.
  intros Hs. induction 1 as [x Hx|x y _ IH Hy]; [by apply Hs|].
  by eapply reach_step.
Qed.

Lemma type_frontier_reachable used y :
  y ∈ frontier used → treach used y.
Proof.
  intros (_ & Hc & x & Hx & Hy)%elem_of_type_frontier.
  eapply treach_step; [by apply treach_start|done..].
Qed.

Lemma type_frontier_fresh used :
  frontier used ⊆ graph_targets snippet_deps ∖ used.
Proof.
  intros y (Hnu & _ & x & _ & Hy)%elem_of_type_frontier.
  apply elem_of_difference. split; [by eapply deps_get_targets|done].
Qed.

Lemma fresh_size (tg used new : gset string) :
  new ⊆ tg ∖ used → new ≠ ∅ →
  size (tg ∖ (used ∪ new)) < size (tg ∖ used).
Proof.
  intros Hsub [z Hz]%set_choose_L.
  apply subset_size. split; [set_solver|].
  intros Hback. specialize (Hsub z Hz). specialize (Hback z Hsub). set_solver.
Qed.

Lemma type_loop_sound fuel k used trans used' trans' :
  type_loop order snippet_deps snippet_categories fuel k used trans
    = Some (used', trans') →
  used ⊆ used' ∧ (∀ y, y ∈ used' → treach used y) ∧
  frontier used' = ∅ ∧ trans' = trans ∪ (used' ∖ used).
Proof.
  revert k used trans.
  induction fuel as [|fuel IH]; intros k used trans; cbn [type_loop]; [done|].
  rewrite type_pass_valid.
  destruct (decide (frontier used = ∅)) as [He|Hne].
  - rewrite bool_decide_eq_false_2 by (intros H; by apply H).
    rewrite He. intros [= <- <-].
    rewrite !(right_id_L ∅ (∪)).
    split; [done|]. split; [intros y Hy; by apply treach_start|].
    split; [done|]. set_solver.
  - rewrite bool_decide_eq_true_2 by done.
    intros (H1 & H2 & H3 & H4)%IH.
    pose proof (type_frontier_fresh used) as Hfresh.
    split; [set_solver|]. split; [|split; [done|]].
    + intros y Hy. eapply type_reachable_mono; [|by apply H2].
      intros x [Hx|Hx]%elem_of_union; [by apply treach_start|].
      by apply type_frontier_reachable.
    + rewrite H4. apply set_eq. intros z.
      rewrite !elem_of_union, !elem_of_difference, elem_of_union.
      destruct (decide (z ∈ frontier used)) as [Hz|Hz]; [|naive_solver].
      specialize (Hfresh z Hz). set_solver.
Qed.

Lemma type_loop_total fuel k used trans :
  size (graph_targets snippet_deps ∖ used) < fuel →
  is_Some (type_loop order snippet_deps snippet_categories fuel k used trans).
Proof.
  revert k used trans.
  induction fuel as [|fuel IH]; intros k used trans Hsz; [lia|].
  cbn [type_loop]. rewrite type_pass_valid.
  destruct (decide (frontier used = ∅)) as [He|Hne].
  - rewrite bool_decide_eq_false_2 by (intros H; by apply H). eauto.
  - rewrite bool_decide_eq_true_2 by done. apply IH.
    pose proof (fresh_size _ _ _ (type_frontier_fresh used) Hne). lia.
Qed.

Lemma type_closed_complete start used y :
  start ⊆ used → frontier used = ∅ →
  treach start y → y ∈ used.
Proof.
  intros Hsub Hcl. induction 1 as [x Hx|x y _ IH Hy Hc]; [by apply Hsub|].
  destruct (decide (y ∈ used)) as [|Hn]; [done|].
  assert (y ∈ frontier used) as Hin.
  { apply elem_of_type_frontier. eauto. }
  rewrite Hcl in Hin. set_solver.
Qed.

Lemma field_loop_sound fuel k direct r i r' i' :
  field_loop order snippet_deps snippet_categories fuel k direct r i
    = Some (r', i') →
  r ⊆ r' ∧ (∀ y, y ∈ r' → ureach r y) ∧
  succs r' ⊆ r' ∧ i' = i ∪ flag direct (r' ∖ r).
Proof.
  revert k r i.
  induction fuel as [|fuel IH]; intros k r i; cbn [field_loop]; [done|].
  rewrite field_pass_valid.
  destruct (decide (succs r ⊆ r)) as [Hcl|Hncl].
  - rewrite bool_decide_eq_false_2 by (intros H; by apply H).
    intros [= <- <-].
    assert (r ∪ succs r = r) as -> by set_solver.
    split; [done|]. split; [intros y Hy; by apply reach_start|].
    split; [done|].
    apply set_eq. intros z.
    rewrite !elem_of_union, !elem_of_flagged, !elem_of_difference.
    naive_solver.
  - rewrite bool_decide_eq_true_2 by done.
    intros (H1 & H2 & H3 & H4)%IH.
    split; [set_solver|]. split; [|split; [done|]].
    + intros y Hy. eapply reachable_mono; [|by apply H2].
      intros x [Hx|Hx]%elem_of_union; [by apply reach_start|].
      apply elem_of_successors in Hx as (w & Hw & Hx).
      eapply reach_step; [by apply reach_start|done].
    + rewrite H4. apply set_eq. intros z.
      rewrite !elem_of_union, !elem_of_flagged, !elem_of_difference,
        elem_of_union.
      destruct (decide (z ∈ succs r)) as [Hz|Hz]; [|naive_solver].
      assert (z ∈ r') by set_solver. naive_solver.
Qed.

Lemma field_loop_total fuel k direct r i :
  size (graph_targets snippet_deps ∖ r) < fuel →
  is_Some (field_loop order snippet_deps snippet_categories fuel k direct r i).
Proof.
  revert k r i.
  induction fuel as [|fuel IH]; intros k r i Hsz; [lia|].
  cbn [field_loop]. rewrite field_pass_valid.
  destruct (decide (succs r ⊆ r)) as [Hcl|Hncl].
  - rewrite bool_decide_eq_false_2 by (intros H; by apply H). eauto.
  - rewrite bool_decide_eq_true_2 by done. apply IH.
    assert (r ∪ succs r = r ∪ (succs r ∖ r)) as ->.
    { apply set_eq. intros z.
      rewrite !elem_of_union, elem_of_difference.
      destruct (decide (z ∈ r)); naive_solver. }
    assert (succs r ∖ r ⊆ graph_targets snippet_deps ∖ r) as Hfresh.
    { pose proof (successors_targets r). set_solver. }
    assert (succs r ∖ r ≠ ∅) as Hne.
    { intros He. apply Hncl. intros z Hz.
      destruct (decide (z ∈ r)) as [|Hn]; [done|].
      assert (z ∈ succs r ∖ r) as Hin by set_solver.
      rewrite He in Hin. set_solver. }
    pose proof (fresh_size _ _ _ Hfresh Hne). lia.
Qed.

Lemma closed_complete start r y :
  start ⊆ r → succs r ⊆ r → ureach start y → y ∈ r.
Proof.
  intros Hsub Hcl. induction 1 as [x Hx|x y _ IH Hy]; [by apply Hsub|].
  apply Hcl, elem_of_successors. eauto.
Qed.

(** *** What the two functions return *)

Lemma type_usage_spec direct :
  ∃ used trans,
    find_transitive_type_usage order snippet_deps snippet_categories direct
      = Some (used, trans) ∧
    (∀ y, y ∈ used ↔ treach direct y) ∧
    trans = used ∖ direct.
Proof.
  unfold find_transitive_type_usage.
  destruct (type_loop_total (S (size (graph_targets snippet_deps))) 0 direct ∅)
    as [[used trans] Hrun].
  { assert (size (graph_targets snippet_deps ∖ direct)
            ≤ size (graph_targets snippet_deps))%nat
      by (apply subseteq_size; set_solver).
    lia. }
  exists used, trans. split; [done|].
  apply type_loop_sound in Hrun as (H1 & H2 & H3 & H4).
  split; [|by rewrite H4, (left_id_L ∅ (∪))].
  intros y. split; [by apply H2|]. by apply type_closed_complete.
Qed.

Lemma field_reachability_spec direct :
  ∃ reach issues,
    field_reachability order snippet_deps snippet_categories direct
      = Some (reach, issues) ∧
    (∀ y, y ∈ reach ↔ ureach direct y) ∧
    issues = flag direct (reach ∖ direct).
Proof.
  unfold field_reachability.
  destruct (field_loop_total (S (size (graph_targets snippet_deps))) 0
              direct direct ∅) as [[reach issues] Hrun].
  { assert (size (graph_targets snippet_deps ∖ direct)
            ≤ size (graph_targets snippet_deps))%nat
      by (apply subseteq_size; set_solver).
    lia. }
  exists reach, issues. split; [done|].
  apply field_loop_sound in Hrun as (H1 & H2 & H3 & H4).
  split; [|by rewrite H4, (left_id_L ∅ (∪))].
  intros y. split; [by apply H2|]. by apply closed_complete.
Qed.
End with_order.
End closure_facts.

(** ** The reference extractor *)

Lemma json_nested_ind (P : json → Prop) :
  P JNull → (∀ b, P (JBool b)) → (∀ n, P (JNum n)) → (∀ s, P (JStr s)) →
  (∀ items, Forall P items → P (JList items)) →
  (∀ entries, Forall (λ e, P e.2) entries → P (JDict entries)) →
  ∀ j, P j.
Proof.
  intros Hnull Hbool Hnum Hstr Hlist Hdict. fix IH 1.
  intros [|b|n|s|items|entries];
    [exact Hnull|apply Hbool|apply Hnum|apply Hstr| |].
  - apply Hlist. induction items as [|x xs IHxs]; constructor; [apply IH|apply IHxs].
  - apply Hdict.
    induction entries as [|[k v] es IHes]; constructor; [apply IH|apply IHes].
Qed.

Lemma elem_of_flat_mapi {A B} (f : nat → A → list B) s l r :
  r ∈ flat_mapi f s l ↔ ∃ i x, l !! i = Some x ∧ r ∈ f (s + i)%nat x.
Proof.
  revert s. induction l as [|a l IH]; intros s; cbn [flat_mapi].
  - split; [by intros ?%elem_of_nil|]. by intros (i & x & Hl & _).
  - rewrite elem_of_app, IH. split.
    + intros [Hr|(i & x & Hl & Hr)].
      * exists 0%nat, a. split; [done|]. by rewrite Nat.add_0_r.
      * exists (S i), x. split; [done|]. by rewrite Nat.add_succ_r.
    + intros ([|i] & x & Hl & Hr).
      * left. injection Hl as <-. by rewrite Nat.add_0_r in Hr.
      * right. exists i, x. split; [done|]. by rewrite Nat.add_succ_r in Hr.
Qed.

Lemma extract_refs_dict isf fp entries path :
  extract_refs isf fp (JDict entries) path =
  entries ≫= (λ '(key, value),
    (ref_here isf fp (dict_path path key) key value
     ++ extract_refs isf fp value (dict_path path key))%list).
Proof. reflexivity. Qed.

Lemma extract_refs_list isf fp items path :
  extract_refs isf fp (JList items) path =
  flat_mapi (λ i item, extract_refs isf fp item (list_path path i)) 0 items.
Proof. reflexivity. Qed.

Lemma elem_of_ref_here isf fp cp key value r :
  r ∈ ref_here isf fp cp key value ↔
  key = "$ref" ∧ ∃ v c, value = JStr v ∧ ref_flags isf fp v = (true, c) ∧
                        r = SnippetRef (stem v) v cp c.
Proof.
  unfold ref_here. destruct value as [| | |v| |];
    try (split; [by intros ?%elem_of_nil|by intros (_ & ? & ? & ? & _)]).
  destruct (String.eqb_spec key "$ref") as [->|Hne].
  - destruct (ref_flags isf fp v) as [[] c] eqn:Hfl.
    + rewrite list_elem_of_singleton. split.
      * intros ->. split; [done|]. by exists v, c.
      * intros (_ & v' & c' & [= <-] & Hfl' & ->).
        rewrite Hfl in Hfl'. by injection Hfl' as <-.
    + split; [by intros ?%elem_of_nil|].
      intros (_ & v' & c' & [= <-] & Hfl' & _). congruence.
  - split; [by intros ?%elem_of_nil|]. by intros [? _].
Qed.

Lemma extract_refs_sound isf fp obj path r :
  r ∈ extract_refs isf fp obj path →
  ref_value_in obj (ref_path r) ∧
  ref_flags isf fp (ref_path r) = (true, ref_category r) ∧
  ref_snippet r = stem (ref_path r).
Proof.
  revert path r.
  induction obj as [| | | |items IH|entries IH] using json_nested_ind;
    intros path r; try (by intros ?%elem_of_nil).
  - rewrite extract_refs_list, elem_of_flat_mapi.
    intros (i & item & Hi & Hr).
    apply list_elem_of_lookup_2 in Hi.
    rewrite Forall_forall in IH.
    destruct (IH item Hi _ _ Hr) as (Hv & Hfl & Hst).
    split; [by eapply rv_list|done].
  - rewrite extract_refs_dict, list_elem_of_bind.
    intros ([key value] & Hr & Hin).
    apply elem_of_app in Hr as [Hr|Hr].
    + apply elem_of_ref_here in Hr as (-> & v & c & -> & Hfl & ->).
      cbn [ref_path ref_category ref_snippet].
      split; [by apply rv_here|done].
    + rewrite Forall_forall in IH.
      destruct (IH _ Hin _ _ Hr) as (Hv & Hfl & Hst).
      split; [by eapply rv_dict|done].
Qed.

Lemma extract_refs_complete isf fp obj v c :
  ref_value_in obj v → ref_flags isf fp v = (true, c) →
  ∀ path, ∃ r, r ∈ extract_refs isf fp obj path ∧
               ref_path r = v ∧ ref_snippet r = stem v ∧ ref_category r = c.
Proof.
  intros Hv Hfl.
  induction Hv as [entries v Hin|entries key value v Hin _ IH|items item v Hin _ IH];
    intros path.
  - exists (SnippetRef (stem v) v (dict_path path "$ref") c).
    split; [|done].
    rewrite extract_refs_dict, list_elem_of_bind.
    exists ("$ref", JStr v). split; [|done].
    apply elem_of_app. left. apply elem_of_ref_here. split; [done|].
    by exists v, c.
  - destruct (IH Hfl (dict_path path key)) as (r & Hr & Hrest).
    exists r. split; [|done].
    rewrite extract_refs_dict, list_elem_of_bind.
    exists (key, value). split; [|done]. apply elem_of_app. by right.
  - apply list_elem_of_lookup_1 in Hin as [i Hi].
    destruct (IH Hfl (list_path path i)) as (r & Hr & Hrest).
    exists r. split; [|done].
    rewrite extract_refs_list, elem_of_flat_mapi. by exists i, item.
Qed.

Lemma ref_value_in_truthy obj v : ref_value_in obj v → truthy obj = true.
Proof.
  destruct 1 as [entries v Hin|entries key value v Hin _|items item v Hin _];
    cbn [truthy]; apply negb_true_iff, bool_decide_eq_false;
    intros ->; by apply elem_of_nil in Hin.
Qed.

Lemma ref_flags_classify fp v :
  spec_classify fp v =
  (let '(is_ref, c) := ref_flags (contains "snippets" fp) fp v in
   if is_ref then Some (stem v, c) else None).
Proof.
  unfold spec_classify, ref_flags, path_category.
  destruct (contains "snippets" v); [done|].
  destruct (contains "snippets" fp && _); done.
Qed.

(** ** The dependency graph builder *)

Lemma deps_get_add_dep name d r n :
  deps_get (add_dep name d r) n =
  if decide (n = name) then deps_get d n ∪ {[ref_snippet r]} else deps_get d n.
Proof.
  unfold add_dep, deps_get. destruct (decide (n = name)) as [->|Hne].
  - by rewrite lookup_insert_eq.
  - by rewrite lookup_insert_ne.
Qed.

Lemma deps_get_add_deps name refs d n :
  deps_get (foldl (add_dep name) d refs) n =
  if decide (n = name)
  then deps_get d n ∪ list_to_set (ref_snippet <$> refs)
  else deps_get d n.
Proof.
  revert d. induction refs as [|r refs IH]; intros d; cbn [foldl].
  - destruct (decide (n = name)); [|done]. set_solver.
  - rewrite IH, deps_get_add_dep.
    destruct (decide (n = name)); [|done].
    rewrite fmap_cons, list_to_set_cons. set_solver.
Qed.

Lemma scan_deps_targets g f n :
  deps_get (snippet_deps (scan_snippet_file g f)) n =
  deps_get (snippet_deps g) n
  ∪ (if decide (stem (file_path f) = n) then file_targets f else ∅).
Proof.
  unfold scan_snippet_file, file_targets. cbn [snippet_deps].
  destruct (load_json_file f) as [c|]; [destruct (truthy c)|].
  - rewrite deps_get_add_deps.
    destruct (decide (n = stem (file_path f))) as [->|Hne].
    + by rewrite decide_True.
    + rewrite decide_False by done. set_solver.
  - destruct (decide _); set_solver.
  - destruct (decide _); set_solver.
Qed.

Lemma scan_all_deps_targets found g n :
  deps_get (snippet_deps (foldl scan_snippet_file g found)) n =
  deps_get (snippet_deps g) n ∪ ⋃ (file_targets <$> files_named n found).
Proof.
  revert g. induction found as [|f found IH]; intros g; cbn [foldl].
  - unfold files_named. rewrite filter_nil. cbn. set_solver.
  - rewrite IH, scan_deps_targets. unfold files_named.
    destruct (decide (stem (file_path f) = n)) as [Hn|Hn].
    + rewrite filter_cons_True by done. rewrite fmap_cons, union_list_cons.
      set_solver.
    + rewrite filter_cons_False by done. set_solver.
Qed.




Lemma scan_registers g f :
  snippet_files (scan_snippet_file g f) !! stem (file_path f)
    = Some (file_path f) ∧
  snippet_categories (scan_snippet_file g f) !! stem (file_path f)
    = Some (path_category (file_path f)).
Proof.
  unfold scan_snippet_file. cbn [snippet_files snippet_categories].
  by rewrite !lookup_insert_eq.
Qed.

Lemma scan_other_name g f n :
  stem (file_path f) ≠ n →
  snippet_files (scan_snippet_file g f) !! n = snippet_files g !! n ∧
  snippet_categories (scan_snippet_file g f) !! n = snippet_categories g !! n.
Proof.
  intros Hne. unfold scan_snippet_file. cbn [snippet_files snippet_categories].
  by rewrite !lookup_insert_ne.
Qed.

Lemma scan_all_other_names found g n :
  files_named n found = [] →
  snippet_files (foldl scan_snippet_file g found) !! n = snippet_files g !! n ∧
  snippet_categories (foldl scan_snippet_file g found) !! n
    = snippet_categories g !! n.
Proof.
  revert g. induction found as [|f found IH]; intros g Hnone; cbn [foldl];
    [done|].
  unfold files_named in Hnone.
  destruct (decide (stem (file_path f) = n)) as [Hn|Hn].
  - by rewrite filter_cons_True in Hnone.
  - rewrite filter_cons_False in Hnone by done.
    destruct (IH (scan_snippet_file g f) Hnone) as [-> ->].
    by apply scan_other_name.
Qed.



(** ** Iteration orders *)

Lemma sorted_order_valid : valid_order sorted_order.
Proof. intros k ctx s x. unfold sorted_order. apply elem_of_elements. Qed.

Lemma reversed_order_valid : valid_order reversed_order.
Proof.
  intros k ctx s x. unfold reversed_order.
  by rewrite elem_of_reverse, elem_of_elements.
Qed.

Lemma type_usage_order_irrelevant order1 order2 deps cats direct :
  valid_order order1 → valid_order order2 →
  find_transitive_type_usage order1 deps cats direct =
  find_transitive_type_usage order2 deps cats direct.
Proof.
  intros H1 H2.
  destruct (type_usage_spec deps cats order1 H1 direct) as (u1 & t1 & -> & Hu1 & ->).
  destruct (type_usage_spec deps cats order2 H2 direct) as (u2 & t2 & -> & Hu2 & ->).
  assert (u1 = u2) as ->; [|done].
  apply set_eq. intros y. by rewrite Hu1, Hu2.
Qed.

Lemma field_reachability_order_irrelevant order1 order2 deps cats direct :
  valid_order order1 → valid_order order2 →
  field_reachability order1 deps cats direct =
  field_reachability order2 deps cats direct.
Proof.
  intros H1 H2.
  destruct (field_reachability_spec deps cats order1 H1 direct)
    as (r1 & i1 & -> & Hr1 & ->).
  destruct (field_reachability_spec deps cats order2 H2 direct)
    as (r2 & i2 & -> & Hr2 & ->).
  assert (r1 = r2) as ->; [|done].
  apply set_eq. intros y. by rewrite Hr1, Hr2.
Qed.

Lemma compute_usage_order_irrelevant order1 order2 deps cats all direct :
  valid_order order1 → valid_order order2 →
  compute_usage order1 deps cats all direct =
  compute_usage order2 deps cats all direct.
Proof.
  intros H1 H2. unfold compute_usage, find_transitive_field_issues.
  by rewrite (type_usage_order_irrelevant order1 order2),
    (field_reachability_order_irrelevant order1 order2).
Qed.

Lemma type_reachable_inv deps cats direct y :
  type_reachable deps cats direct y → y ∈ direct ∨ cats !! y = Some CType.
Proof. destruct 1; auto. Qed.

(** The sets [compute_usage] returns, in terms of the two reachability
    notions. *)
Lemma compute_usage_spec order deps cats all direct :
  valid_order order →
  ∃ used reach,
    compute_usage order deps cats all direct =
      Some (UsageSets direct used (used ∖ direct)
                      (flagged cats direct (reach ∖ direct)) (all ∖ used)) ∧
    (∀ y, y ∈ used ↔ type_reachable deps cats direct y) ∧
    (∀ y, y ∈ reach ↔ reachable deps direct y).
Proof.
  intros Hv. unfold compute_usage, find_transitive_field_issues.
  destruct (type_usage_spec deps cats order Hv direct) as (used & t & -> & Hu & ->).
  destruct (field_reachability_spec deps cats order Hv direct)
    as (reach & i & -> & Hr & ->).
  by exists used, reach.
Qed.

(** ** The usage sets *)

(** C1, as the code has it: a field snippet that the unrestricted pass
    reaches from the directly used snippets, but that is not directly used
    itself, is flagged in [transitive_field_issues], is never part of the
    type-restricted [all_used_snippets], and therefore, when it is one of the
    registered snippets, belongs to [orphaned_snippets]. *)
Theorem C1_transitive_field_is_orphaned order deps cats all direct F :
  valid_order order →
  cats !! F = Some CField →
  reachable deps direct F →
  F ∉ direct →
  F ∈ all →
  ∃ u, compute_usage order deps cats all direct = Some u ∧
       F ∈ transitive_field_issues u ∧
       F ∉ all_used_snippets u ∧
       F ∈ orphaned_snippets u.
Proof.
  intros Hv Hcat Hreach Hnd Hall.
  destruct (compute_usage_spec order deps cats all direct Hv)
    as (used & reach & -> & Hu & Hr).
  eexists. split; [done|].
  cbn [transitive_field_issues all_used_snippets orphaned_snippets].
  assert (F ∉ used) as Hnu.
  { intros [Hd|Hty]%Hu%type_reachable_inv; [done|congruence]. }
  split; [|split; [done|set_solver]].
  apply elem_of_flagged. split; [done|]. split; [done|].
  apply elem_of_difference. split; [by apply Hr|done].
Qed.

Lemma C1_transitive_field_is_orphaned_witness :
  ∃ u, compute_usage sorted_order field_via_type_deps field_via_type_categories
                     {[ "T"; "F" ]} {[ "T" ]} = Some u ∧
       "F" ∈ transitive_field_issues u ∧
       "F" ∉ all_used_snippets u ∧
       "F" ∈ orphaned_snippets u.
Proof.
  apply (C1_transitive_field_is_orphaned sorted_order field_via_type_deps
           field_via_type_categories {[ "T"; "F" ]} {[ "T" ]} "F").
  - exact sorted_order_valid.
  - vm_compute. reflexivity.
  - apply (reach_step _ _ "T" "F").
    + apply reach_start. vm_compute. reflexivity.
    + vm_compute. reflexivity.
  - vm_compute. discriminate.
  - vm_compute. reflexivity.
Defined.

(** C1, as the specification words it, fails: with a type T that references
    a field F and a source schema that references only T, the field F is
    reached by the unrestricted pass, is not directly used, is flagged, and is
    nevertheless a member of the orphaned set. *)
Lemma C1_counterexample :
  ∃ u, compute_usage sorted_order field_via_type_deps field_via_type_categories
                     {[ "T"; "F" ]} {[ "T" ]} = Some u ∧
       field_via_type_categories !! "F" = Some CField ∧
       reachable field_via_type_deps {[ "T" ]} "F" ∧
       "F" ∉ ({[ "T" ]} : gset string) ∧
       "F" ∈ transitive_field_issues u ∧
       ¬ ("F" ∉ orphaned_snippets u).
Proof.
  exists (UsageSets {[ "T" ]} {[ "T" ]} ∅ {[ "F" ]} {[ "F" ]}).
  split; [vm_compute; reflexivity|].
  split; [vm_compute; reflexivity|].
  split.
  { apply (reach_step _ _ "T" "F"); [apply reach_start|];
      vm_compute; reflexivity. }
  cbn [transitive_field_issues orphaned_snippets].
  split; [vm_compute; discriminate|].
  split; [vm_compute; reflexivity|].
  intros Hno. apply Hno. vm_compute. reflexivity.
Qed.

(** C2: the type-restricted closure returns exactly the directly used
    snippets together with the snippets reachable from them along edges that
    end in a type snippet. A snippet that was added transitively has category
    type, and a snippet whose only referrers are non-type snippets that are
    not directly used is not added. *)
Theorem C2_type_restricted_closure order deps cats direct :
  valid_order order →
  ∃ used trans,
    find_transitive_type_usage order deps cats direct = Some (used, trans) ∧
    (∀ y, y ∈ used ↔ type_reachable deps cats direct y) ∧
    (∀ y, y ∈ used → y ∉ direct → cats !! y = Some CType) ∧
    (∀ t, t ∉ direct →
          (∀ x, t ∈ deps_get deps x → cats !! x ≠ Some CType ∧ x ∉ direct) →
          t ∉ used) ∧
    trans = used ∖ direct.
Proof.
  intros Hv.
  destruct (type_usage_spec deps cats order Hv direct) as (used & t & -> & Hu & ->).
  exists used, (used ∖ direct). split; [done|]. split; [done|].
  split; [|split; [|done]].
  - intros y [Hd|Hty]%Hu%type_reachable_inv Hnd; done.
  - intros t Hnd Hrefs Hin. apply Hu in Hin.
    destruct Hin as [x Hx|x y Hx Hy Hc]; [done|].
    destruct (Hrefs x Hy) as [Hnt Hnx].
    apply type_reachable_inv in Hx as [Hx|Hx]; done.
Qed.

Lemma C2_type_restricted_closure_witness :
  ∃ used trans,
    find_transitive_type_usage sorted_order mixed_deps mixed_categories {[ "A" ]}
      = Some (used, trans) ∧
    (∀ y, y ∈ used ↔ type_reachable mixed_deps mixed_categories {[ "A" ]} y) ∧
    (∀ y, y ∈ used → y ∉ ({[ "A" ]} : gset string) →
          mixed_categories !! y = Some CType) ∧
    (∀ t, t ∉ ({[ "A" ]} : gset string) →
          (∀ x, t ∈ deps_get mixed_deps x →
                mixed_categories !! x ≠ Some CType ∧
                x ∉ ({[ "A" ]} : gset string)) →
          t ∉ used) ∧
    trans = used ∖ {[ "A" ]}.
Proof.
  apply (C2_type_restricted_closure sorted_order mixed_deps mixed_categories
           {[ "A" ]}).
  exact sorted_order_valid.
Defined.

(** C3: a field snippet that the unrestricted pass reaches and that is not
    directly used appears in [transitive_field_issues]; a directly used
    snippet never appears there, whatever edges point to it. *)
Theorem C3_field_flagging order deps cats direct :
  valid_order order →
  ∃ issues,
    find_transitive_field_issues order deps cats direct = Some issues ∧
    (∀ F, cats !! F = Some CField → reachable deps direct F → F ∉ direct →
          F ∈ issues) ∧
    (∀ F, F ∈ direct → F ∉ issues) ∧
    (∀ F, F ∈ issues → cats !! F = Some CField ∧ reachable deps direct F).
Proof.
  intros Hv. unfold find_transitive_field_issues.
  destruct (field_reachability_spec deps cats order Hv direct)
    as (reach & i & -> & Hr & ->).
  eexists. split; [done|]. split; [|split].
  - intros F Hc Hreach Hnd. apply elem_of_flagged.
    split; [done|]. split; [done|].
    apply elem_of_difference. split; [by apply Hr|done].
  - intros F Hd (_ & Hnd & _)%elem_of_flagged. done.
  - intros F (Hc & _ & [Hin _]%elem_of_difference)%elem_of_flagged.
    split; [done|]. by apply Hr.
Qed.

Lemma C3_field_flagging_witness :
  ∃ issues,
    find_transitive_field_issues sorted_order field_via_type_deps
                                 field_via_type_categories {[ "T" ]}
      = Some issues ∧
    (∀ F, field_via_type_categories !! F = Some CField →
          reachable field_via_type_deps {[ "T" ]} F →
          F ∉ ({[ "T" ]} : gset string) → F ∈ issues) ∧
    (∀ F, F ∈ ({[ "T" ]} : gset string) → F ∉ issues) ∧
    (∀ F, F ∈ issues →
          field_via_type_categories !! F = Some CField ∧
          reachable field_via_type_deps {[ "T" ]} F).
Proof.
  apply (C3_field_flagging sorted_order field_via_type_deps
           field_via_type_categories {[ "T" ]}).
  exact sorted_order_valid.
Defined.

(** C4: the directly used snippets are contained in [all_used_snippets], and
    no directly used snippet is in [transitive_field_issues]. *)
Theorem C4_usage_invariants order deps cats all direct :
  valid_order order →
  ∃ u, compute_usage order deps cats all direct = Some u ∧
       direct_used_snippets u = direct ∧
       direct_used_snippets u ⊆ all_used_snippets u ∧
       transitive_field_issues u ∩ direct_used_snippets u = ∅.
Proof.
  intros Hv.
  destruct (compute_usage_spec order deps cats all direct Hv)
    as (used & reach & -> & Hu & Hr).
  eexists. split; [done|].
  cbn [direct_used_snippets all_used_snippets transitive_field_issues].
  split; [done|]. split.
  - intros y Hy. apply Hu. by apply treach_start.
  - apply set_eq. intros y.
    rewrite elem_of_intersection, elem_of_flagged. set_solver.
Qed.

Lemma C4_usage_invariants_witness :
  ∃ u, compute_usage sorted_order scenario_deps scenario_categories
                     {[ "A"; "B"; "F"; "G" ]} {[ "A"; "G" ]} = Some u ∧
       direct_used_snippets u = {[ "A"; "G" ]} ∧
       direct_used_snippets u ⊆ all_used_snippets u ∧
       transitive_field_issues u ∩ direct_used_snippets u = ∅.
Proof.
  apply (C4_usage_invariants sorted_order scenario_deps scenario_categories
           {[ "A"; "B"; "F"; "G" ]} {[ "A"; "G" ]}).
  exact sorted_order_valid.
Defined.

(** ** Termination *)

Lemma cycle_edges x y :
  y ∈ deps_get cycle_deps x ↔ (x = "A" ∧ y = "B") ∨ (x = "B" ∧ y = "A").
Proof.
  unfold deps_get, cycle_deps.
  destruct (decide (x = "A")) as [->|HA].
  - rewrite lookup_insert_eq. cbn. rewrite elem_of_singleton. naive_solver.
  - rewrite lookup_insert_ne by done.
    destruct (decide (x = "B")) as [->|HB].
    + rewrite lookup_singleton_eq. cbn. rewrite elem_of_singleton. naive_solver.
    + rewrite lookup_singleton_ne by done. cbn.
      split; [by intros ?%not_elem_of_empty|naive_solver].
Qed.

Lemma cycle_reachable y :
  reachable cycle_deps {[ "A" ]} y ↔ y = "A" ∨ y = "B".
Proof.
  split.
  - induction 1 as [x Hx|x y _ IH Hy].
    + left. by apply elem_of_singleton in Hx.
    + apply cycle_edges in Hy. naive_solver.
  - intros [->| ->].
    + apply reach_start. by apply elem_of_singleton.
    + apply (reach_step _ _ "A" "B").
      * apply reach_start. by apply elem_of_singleton.
      * apply cycle_edges. by left.
Qed.

Lemma cycle_type_reachable cats y :
  type_reachable cycle_deps cats {[ "A" ]} y ↔
  y = "A" ∨ (y = "B" ∧ cats !! "B" = Some CType).
Proof.
  split.
  - induction 1 as [x Hx|x y _ IH Hy Hc].
    + left. by apply elem_of_singleton in Hx.
    + apply cycle_edges in Hy. naive_solver.
  - intros [->| [-> Hc]].
    + apply treach_start. by apply elem_of_singleton.
    + apply (treach_step _ _ _ "A" "B"); [|by apply cycle_edges; left|done].
      apply treach_start. by apply elem_of_singleton.
Qed.

(** C5, as the code has it: both closures return on every dependency graph,
    category map and set of directly used snippets; nothing in them can
    raise, a name without a graph entry simply has no edges. On the cycle
    A→B→A with only A directly used, the unrestricted pass reaches {A, B}
    whatever the categories are, and the type-restricted closure returns
    {A, B} with transitive types {B} when B is a type snippet, and {A}
    otherwise. *)
Theorem C5_closures_terminate order deps cats direct :
  valid_order order →
  is_Some (find_transitive_type_usage order deps cats direct) ∧
  is_Some (find_transitive_field_issues order deps cats direct) ∧
  (∃ issues, field_reachability order cycle_deps cats {[ "A" ]}
               = Some ({[ "A"; "B" ]}, issues)) ∧
  find_transitive_type_usage order cycle_deps cats {[ "A" ]}
    = Some (if is_type cats "B"
            then ({[ "A"; "B" ]}, {[ "B" ]})
            else ({[ "A" ]}, ∅)).
Proof.
  intros Hv. split; [|split; [|split]].
  - destruct (type_usage_spec deps cats order Hv direct) as (u & t & -> & _).
    eauto.
  - unfold find_transitive_field_issues.
    destruct (field_reachability_spec deps cats order Hv direct)
      as (r & i & -> & _).
    cbn. eauto.
  - destruct (field_reachability_spec cycle_deps cats order Hv {[ "A" ]})
      as (r & i & -> & Hr & _).
    exists i. do 2 f_equal. apply set_eq. intros y.
    rewrite Hr, cycle_reachable. set_solver.
  - destruct (type_usage_spec cycle_deps cats order Hv {[ "A" ]})
      as (u & t & -> & Hu & ->).
    f_equal. destruct (is_type cats "B") eqn:HB.
    + apply is_type_true in HB.
      assert (u = {[ "A"; "B" ]}) as ->.
      { apply set_eq. intros y. rewrite Hu, cycle_type_reachable. set_solver. }
      f_equal; set_solver.
    + assert (cats !! "B" ≠ Some CType) as HnB.
      { intros Hc. apply is_type_true in Hc. congruence. }
      assert (u = {[ "A" ]}) as ->.
      { apply set_eq. intros y. rewrite Hu, cycle_type_reachable. set_solver. }
      f_equal; set_solver.
Qed.

Lemma C5_closures_terminate_witness :
  is_Some (find_transitive_type_usage reversed_order mixed_deps mixed_categories
             {[ "A" ]}) ∧
  is_Some (find_transitive_field_issues reversed_order mixed_deps mixed_categories
             {[ "A" ]}) ∧
  (∃ issues, field_reachability reversed_order cycle_deps mixed_categories {[ "A" ]}
               = Some ({[ "A"; "B" ]}, issues)) ∧
  find_transitive_type_usage reversed_order cycle_deps mixed_categories {[ "A" ]}
    = Some (if is_type mixed_categories "B"
            then ({[ "A"; "B" ]}, {[ "B" ]})
            else ({[ "A" ]}, ∅)).
Proof.
  apply (C5_closures_terminate reversed_order mixed_deps mixed_categories {[ "A" ]}).
  exact reversed_order_valid.
Defined.

(** C5, as the specification words it, fails for the type-restricted
    closure: on the cycle A→B→A with only A directly used and B a field
    snippet, the closure returns {A}, not {A, B}. *)
Lemma C5_counterexample :
  find_transitive_type_usage sorted_order cycle_deps cycle_field_categories
                             {[ "A" ]} = Some ({[ "A" ]}, ∅) ∧
  ({[ "A" ]} : gset string) ≠ {[ "A"; "B" ]}.
Proof.
  split; [vm_compute; reflexivity|].
  intros Heq. assert ("B" ∈ ({[ "A" ]} : gset string)) as Hin.
  { rewrite Heq. set_solver. }
  apply elem_of_singleton in Hin. discriminate.
Qed.

(** ** Determinism *)

(** C6: the results of both closures, and with them every set handed to the
    report, are determined by the graph, the categories and the directly
    used snippets alone: any two iteration orders give the same results. *)
Theorem C6_order_independent order1 order2 deps cats all direct :
  valid_order order1 →
  valid_order order2 →
  find_transitive_type_usage order1 deps cats direct =
    find_transitive_type_usage order2 deps cats direct ∧
  find_transitive_field_issues order1 deps cats direct =
    find_transitive_field_issues order2 deps cats direct ∧
  compute_usage order1 deps cats all direct =
    compute_usage order2 deps cats all direct ∧
  is_Some (compute_usage order1 deps cats all direct).
Proof.
  intros H1 H2. split; [|split; [|split]].
  - by apply type_usage_order_irrelevant.
  - unfold find_transitive_field_issues.
    by rewrite (field_reachability_order_irrelevant order1 order2).
  - by apply compute_usage_order_irrelevant.
  - destruct (compute_usage_spec order1 deps cats all direct H1)
      as (u & r & -> & _).
    eauto.
Qed.

Lemma C6_order_independent_witness :
  find_transitive_type_usage sorted_order mixed_deps mixed_categories {[ "A" ]} =
    find_transitive_type_usage reversed_order mixed_deps mixed_categories {[ "A" ]} ∧
  find_transitive_field_issues sorted_order mixed_deps mixed_categories {[ "A" ]} =
    find_transitive_field_issues reversed_order mixed_deps mixed_categories {[ "A" ]} ∧
  compute_usage sorted_order mixed_deps mixed_categories
                {[ "A"; "B"; "C"; "O"; "T" ]} {[ "A" ]} =
    compute_usage reversed_order mixed_deps mixed_categories
                  {[ "A"; "B"; "C"; "O"; "T" ]} {[ "A" ]} ∧
  is_Some (compute_usage sorted_order mixed_deps mixed_categories
                         {[ "A"; "B"; "C"; "O"; "T" ]} {[ "A" ]}).
Proof.
  apply (C6_order_independent sorted_order reversed_order mixed_deps
           mixed_categories {[ "A"; "B"; "C"; "O"; "T" ]} {[ "A" ]}).
  - exact sorted_order_valid.
  - exact reversed_order_valid.
Defined.

(** ** Classification of references *)

(** C7: the records [find_snippet_references] returns are exactly the
    strings under a ["$ref"] key that the rule of the specification accepts.
    A string that contains "snippets" gets its category from the string
    itself; otherwise a string that starts with "./" or "../", found in a
    file whose path contains "snippets", gets the category of that file's
    path; every other string yields no record. The recorded name is the stem
    of the string, computed from its characters alone. *)
Theorem C7_reference_classification (content : json) (filepath : string) :
  (∀ r, r ∈ find_snippet_references content filepath →
        ref_value_in content (ref_path r) ∧
        spec_classify filepath (ref_path r)
          = Some (ref_snippet r, ref_category r) ∧
        ref_snippet r = stem (ref_path r)) ∧
  (∀ v, ref_value_in content v →
        match spec_classify filepath v with
        | Some (name, c) =>
            name = stem v ∧
            ∃ r, r ∈ find_snippet_references content filepath ∧
                 ref_path r = v ∧ ref_snippet r = name ∧ ref_category r = c
        | None =>
            ∀ r, r ∈ find_snippet_references content filepath → ref_path r ≠ v
        end).
Proof.
  assert (∀ r, r ∈ find_snippet_references content filepath →
               ref_value_in content (ref_path r) ∧
               spec_classify filepath (ref_path r)
                 = Some (ref_snippet r, ref_category r) ∧
               ref_snippet r = stem (ref_path r)) as Hsound.
  { intros r. unfold find_snippet_references.
    destruct (truthy content); [|by intros ?%elem_of_nil].
    intros (Hv & Hfl & Hst)%extract_refs_sound.
    split; [done|]. split; [|done].
    by rewrite ref_flags_classify, Hfl, Hst. }
  split; [done|].
  intros v Hv. rewrite ref_flags_classify.
  destruct (ref_flags (contains "snippets" filepath) filepath v) as [[] c] eqn:Hfl.
  - split; [done|].
    destruct (extract_refs_complete _ _ _ _ _ Hv Hfl "") as (r & Hr & Hrest).
    exists r. split; [|done].
    unfold find_snippet_references. by rewrite (ref_value_in_truthy _ _ Hv).
  - intros r [_ [Hc _]]%Hsound Heq.
    rewrite Heq, ref_flags_classify, Hfl in Hc. done.
Qed.

Example stem_examples :
  stem "../snippets/types/Money.json" = "Money" ∧
  stem "./B.json" = "B" ∧
  stem "schemas/snippets/fields/entity.id.json" = "entity.id" ∧
  stem "../snippets/types/Base.json#/definitions/Id" = "Id" ∧
  stem "no/such/file/anywhere.json" = "anywhere".
Proof. repeat split. Qed.

Example classification_examples :
  spec_classify "schemas/entities/Thing.json" "../snippets/fields/Name.json"
    = Some ("Name", CField) ∧
  spec_classify "schemas/entities/Thing.json" "../snippets/types/Money.json"
    = Some ("Money", CType) ∧
  spec_classify "schemas/entities/Thing.json" "../snippets/Misc.json"
    = Some ("Misc", COther) ∧
  spec_classify "schemas/snippets/types/A.json" "./B.json" = Some ("B", CType) ∧
  spec_classify "schemas/snippets/fields/F.json" "../types/B.json"
    = Some ("B", CField) ∧
  spec_classify "schemas/snippets/Misc.json" "./B.json" = Some ("B", COther) ∧
  spec_classify "schemas/entities/Thing.json" "./Other.json" = None ∧
  spec_classify "schemas/snippets/types/A.json" "#/definitions/B" = None.
Proof. repeat split. Qed.

(** ** The scenario of the specification *)

(** C8: on the scenario (types A and B with A referencing B, fields F and G,
    one source schema referencing A and G) the builder produces the graph
    A→B with the four categories, and the analyzer computes
    directlyUsed = {A, G}, allUsed = {A, B, G}, transitiveTypes = {B},
    transitiveFieldIssues = {} and orphaned = {F}. *)
Theorem C8_scenario order :
  valid_order order →
  let g := build_snippet_dependency_graph true (snippets_rglob scenario_tree) in
  snippet_deps g = scenario_deps ∧
  snippet_categories g = scenario_categories ∧
  dom (snippet_files g) = {[ "A"; "B"; "F"; "G" ]} ∧
  analyze_schemas order scenario_tree =
    Some (UsageSets {[ "A"; "G" ]} {[ "A"; "B"; "G" ]} {[ "B" ]} ∅ {[ "F" ]}).
Proof.
  intros Hv. cbv zeta.
  split; [vm_compute; reflexivity|].
  split; [vm_compute; reflexivity|].
  split; [vm_compute; reflexivity|].
  unfold analyze_schemas.
  rewrite (compute_usage_order_irrelevant order sorted_order)
    by (done || exact sorted_order_valid).
  vm_compute. reflexivity.
Qed.

Lemma C8_scenario_witness :
  let g := build_snippet_dependency_graph true (snippets_rglob scenario_tree) in
  snippet_deps g = scenario_deps ∧
  snippet_categories g = scenario_categories ∧
  dom (snippet_files g) = {[ "A"; "B"; "F"; "G" ]} ∧
  analyze_schemas reversed_order scenario_tree =
    Some (UsageSets {[ "A"; "G" ]} {[ "A"; "B"; "G" ]} {[ "B" ]} ∅ {[ "F" ]}).
Proof.
  apply (C8_scenario reversed_order). exact reversed_order_valid.
Defined.

(** ** Files that fail to load, and files that share a stem *)


(** C10: when two snippet files have the same stem (and no other file
    does), the graph has one node for that stem; its edges are the union of
    the references of both files, and its recorded path and category are
    those of the file scanned later. *)
Theorem C10_stem_collision (before between after : list schema_file)
    (f1 f2 : schema_file) (n : string) :
  stem (file_path f1) = n →
  stem (file_path f2) = n →
  files_named n before = [] →
  files_named n between = [] →
  files_named n after = [] →
  let g := build_snippet_dependency_graph true
             (before ++ f1 :: between ++ f2 :: after) in
  deps_get (snippet_deps g) n = file_targets f1 ∪ file_targets f2 ∧
  snippet_files g !! n = Some (file_path f2) ∧
  snippet_categories g !! n = Some (path_category (file_path f2)).
Proof.
  intros Hn1 Hn2 Hb Hm Ha. cbv zeta. unfold build_snippet_dependency_graph.
  split.
  - rewrite scan_all_deps_targets. cbn [snippet_deps].
    unfold files_named in *.
    rewrite filter_app, filter_cons_True by done.
    rewrite filter_app, filter_cons_True by done.
    rewrite Hb, Hm, Ha. cbn. unfold deps_get. rewrite lookup_empty. cbn.
    set_solver.
  - rewrite foldl_app. cbn [foldl]. rewrite foldl_app. cbn [foldl].
    set (g2 := foldl scan_snippet_file _ between).
    destruct (scan_all_other_names after (scan_snippet_file g2 f2) n Ha)
      as [-> ->].
    rewrite <-Hn2. apply scan_registers.
Qed.

Lemma C10_stem_collision_witness :
  let g := build_snippet_dependency_graph true
             ([] ++ name_as_type :: [] ++ name_as_field :: []) in
  deps_get (snippet_deps g) "Name"
    = file_targets name_as_type ∪ file_targets name_as_field ∧
  snippet_files g !! "Name" = Some (file_path name_as_field) ∧
  snippet_categories g !! "Name" = Some (path_category (file_path name_as_field)).
Proof.
  apply (C10_stem_collision [] [] [] name_as_type name_as_field "Name");
    reflexivity.
Defined.

Example stem_collision_example :
  let g := build_snippet_dependency_graph true [name_as_type; name_as_field] in
  snippet_deps g = {[ "Name" := {[ "X"; "Y" ]} ]} ∧
  snippet_files g = {[ "Name" := "schemas/snippets/fields/Name.json" ]} ∧
  snippet_categories g = {[ "Name" := CField ]}.
Proof. cbv zeta. repeat split; vm_compute; reflexivity. Qed.

(** * Further properties of the analyzer *)

(** ** The closures *)

Lemma type_reachable_reachable deps cats start y :
  type_reachable deps cats start y → reachable deps start y.
Proof.
  induction 1 as [x Hx|x y _ IH Hy _]; [by apply reach_start|].
  by eapply reach_step.
Qed.

Lemma reachable_typed_is_type_reachable deps cats start y :
  (∀ z, reachable deps start z → z ∉ start → cats !! z = Some CType) →
  reachable deps start y → type_reachable deps cats start y.
Proof.
  intros Hty. induction 1 as [x Hx|x y Hx IH Hy]; [by apply treach_start|].
  destruct (decide (y ∈ start)) as [Hin|Hnin]; [by apply treach_start|].
  eapply treach_step; [done..|].
  apply Hty; [by eapply reach_step|done].
Qed.

Lemma type_reachable_edge deps cats start y :
  type_reachable deps cats start y → y ∉ start →
  ∃ x, type_reachable deps cats start x ∧ y ∈ deps_get deps x.
Proof. destruct 1 as [x Hx|x y Hx Hy _]; [done|eauto]. Qed.

Lemma reachable_edge deps start y :
  reachable deps start y → y ∉ start →
  ∃ x, reachable deps start x ∧ y ∈ deps_get deps x.
Proof. destruct 1 as [x Hx|x y Hx Hy]; [done|eauto]. Qed.

(** X1: The type-restricted closure never leaves the set the unrestricted pass
    reaches, the flagged fields lie in the gap between the two, and the two
    sets coincide, with nothing flagged, when every snippet reached beyond
    the directly used ones is a type snippet. *)
Theorem closure_within_reachability order deps cats direct :
  valid_order order →
  ∃ used trans reach issues,
    find_transitive_type_usage order deps cats direct = Some (used, trans) ∧
    field_reachability order deps cats direct = Some (reach, issues) ∧
    used ⊆ reach ∧
    issues ⊆ reach ∖ used ∧
    ((∀ y, y ∈ reach → y ∉ direct → cats !! y = Some CType) →
     used = reach ∧ issues = ∅).
Proof.
  intros Hv.
  destruct (type_usage_spec deps cats order Hv direct) as (used & t & -> & Hu & ->).
  destruct (field_reachability_spec deps cats order Hv direct)
    as (reach & i & -> & Hr & ->).
  exists used, (used ∖ direct), reach, (flagged cats direct (reach ∖ direct)).
  split; [done|]. split; [done|].
  assert (used ⊆ reach) as Hsub.
  { intros y Hy. apply Hr. eapply type_reachable_reachable. by apply Hu. }
  split; [done|]. split.
  - intros y (Hc & Hnd & [Hin _]%elem_of_difference)%elem_of_flagged.
    apply elem_of_difference. split; [done|].
    intros [Hd|Hty]%Hu%type_reachable_inv; [done|congruence].
  - intros Hty. split.
    + apply set_eq. intros y. split; [by apply Hsub|].
      intros Hy. apply Hu. apply reachable_typed_is_type_reachable; [|by apply Hr].
      intros z Hz Hnz. apply Hty; [by apply Hr|done].
    + apply set_eq. intros y. rewrite elem_of_flagged, elem_of_difference.
      split; [|by intros ?%not_elem_of_empty].
      intros (Hc & Hnd & Hin & _). specialize (Hty y Hin Hnd). congruence.
Qed.

Lemma closure_within_reachability_witness :
  ∃ used trans reach issues,
    find_transitive_type_usage sorted_order mixed_deps mixed_categories {[ "A" ]}
      = Some (used, trans) ∧
    field_reachability sorted_order mixed_deps mixed_categories {[ "A" ]}
      = Some (reach, issues) ∧
    used ⊆ reach ∧
    issues ⊆ reach ∖ used ∧
    ((∀ y, y ∈ reach → y ∉ ({[ "A" ]} : gset string) →
           mixed_categories !! y = Some CType) →
     used = reach ∧ issues = ∅).
Proof.
  apply (closure_within_reachability sorted_order mixed_deps mixed_categories
           {[ "A" ]}).
  exact sorted_order_valid.
Defined.

(** X2: The directly used snippets, the transitive types and the flagged fields
    are pairwise disjoint; the first two make up [all_used_snippets], so the
    counts the report prints add up. *)
Theorem usage_sets_partition order deps cats all direct :
  valid_order order →
  ∃ u, compute_usage order deps cats all direct = Some u ∧
       all_used_snippets u = direct_used_snippets u ∪ transitive_types u ∧
       direct_used_snippets u ## transitive_types u ∧
       transitive_types u ## transitive_field_issues u ∧
       all_used_snippets u ## transitive_field_issues u ∧
       size (all_used_snippets u)
         = (size (direct_used_snippets u) + size (transitive_types u))%nat ∧
       orphaned_snippets u ## all_used_snippets u.
Proof.
  intros Hv.
  destruct (compute_usage_spec order deps cats all direct Hv)
    as (used & reach & -> & Hu & Hr).
  eexists. split; [done|].
  cbn [direct_used_snippets all_used_snippets transitive_types
       transitive_field_issues orphaned_snippets].
  assert (direct ⊆ used) as Hsub.
  { intros y Hy. apply Hu. by apply treach_start. }
  assert (used ## flagged cats direct (reach ∖ direct)) as Hdisj.
  { intros y [Hd|Hty]%Hu%type_reachable_inv (Hc & Hnd & _)%elem_of_flagged;
      [done|congruence]. }
  split; [by apply union_difference_L|].
  split; [set_solver|]. split; [set_solver|]. split; [done|].
  split; [|set_solver].
  rewrite (union_difference_L direct used Hsub) at 1.
  apply size_union. set_solver.
Qed.

Lemma usage_sets_partition_witness :
  ∃ u, compute_usage sorted_order mixed_deps mixed_categories
                     {[ "A"; "B"; "C"; "O"; "T" ]} {[ "A" ]} = Some u ∧
       all_used_snippets u = direct_used_snippets u ∪ transitive_types u ∧
       direct_used_snippets u ## transitive_types u ∧
       transitive_types u ## transitive_field_issues u ∧
       all_used_snippets u ## transitive_field_issues u ∧
       size (all_used_snippets u)
         = (size (direct_used_snippets u) + size (transitive_types u))%nat ∧
       orphaned_snippets u ## all_used_snippets u.
Proof.
  apply (usage_sets_partition sorted_order mixed_deps mixed_categories
           {[ "A"; "B"; "C"; "O"; "T" ]} {[ "A" ]}).
  exact sorted_order_valid.
Defined.

(** X3: The result of the type-restricted closure is a fixed point: started
    again from [all_used_snippets] it returns the same set and finds no
    further transitive type. *)
Theorem type_closure_idempotent order deps cats direct used trans :
  valid_order order →
  find_transitive_type_usage order deps cats direct = Some (used, trans) →
  find_transitive_type_usage order deps cats used = Some (used, ∅).
Proof.
  intros Hv Hrun.
  destruct (type_usage_spec deps cats order Hv direct) as (u & t & Hrun' & Hu & _).
  rewrite Hrun in Hrun'. injection Hrun' as <- <-.
  destruct (type_usage_spec deps cats order Hv used) as (u2 & t2 & -> & Hu2 & ->).
  assert (u2 = used) as ->.
  { apply set_eq. intros y. rewrite Hu2. split.
    - intros Hy. apply Hu. eapply type_reachable_mono; [|done].
      intros x Hx. by apply Hu.
    - intros Hy. by apply treach_start. }
  do 2 f_equal. set_solver.
Qed.

Lemma type_closure_idempotent_witness :
  find_transitive_type_usage sorted_order scenario_deps scenario_categories
                             {[ "A"; "B"; "G" ]} = Some ({[ "A"; "B"; "G" ]}, ∅).
Proof.
  apply (type_closure_idempotent sorted_order scenario_deps scenario_categories
           {[ "A"; "G" ]} {[ "A"; "B"; "G" ]} {[ "B" ]}).
  - exact sorted_order_valid.
  - vm_compute. reflexivity.
Defined.

(** X4: More direct usage never shrinks what counts as used: both the
    type-restricted closure and the reachable set grow with the directly
    used set. A flagged field stays flagged unless it becomes directly
    used. *)
Theorem closures_monotone order deps cats direct1 direct2 :
  valid_order order →
  direct1 ⊆ direct2 →
  ∃ used1 trans1 used2 trans2 reach1 issues1 reach2 issues2,
    find_transitive_type_usage order deps cats direct1 = Some (used1, trans1) ∧
    find_transitive_type_usage order deps cats direct2 = Some (used2, trans2) ∧
    field_reachability order deps cats direct1 = Some (reach1, issues1) ∧
    field_reachability order deps cats direct2 = Some (reach2, issues2) ∧
    used1 ⊆ used2 ∧ reach1 ⊆ reach2 ∧ issues1 ∖ direct2 ⊆ issues2.
Proof.
  intros Hv Hsub.
  destruct (type_usage_spec deps cats order Hv direct1) as (u1 & t1 & -> & Hu1 & _).
  destruct (type_usage_spec deps cats order Hv direct2) as (u2 & t2 & -> & Hu2 & _).
  destruct (field_reachability_spec deps cats order Hv direct1)
    as (r1 & i1 & -> & Hr1 & ->).
  destruct (field_reachability_spec deps cats order Hv direct2)
    as (r2 & i2 & -> & Hr2 & ->).
  do 8 eexists. do 4 (split; [done|]).
  assert (r1 ⊆ r2) as Hr.
  { intros y Hy. apply Hr2. eapply reachable_mono; [|by apply Hr1].
    intros x Hx. apply reach_start. by apply Hsub. }
  split; [|split; [done|]].
  - intros y Hy. apply Hu2. eapply type_reachable_mono; [|by apply Hu1].
    intros x Hx. apply treach_start. by apply Hsub.
  - intros y [(Hc & Hnd & [Hin _]%elem_of_difference)%elem_of_flagged Hnd2]
             %elem_of_difference.
    apply elem_of_flagged. split; [done|]. split; [done|].
    apply elem_of_difference. split; [by apply Hr|done].
Qed.

Lemma closures_monotone_witness :
  ∃ used1 trans1 used2 trans2 reach1 issues1 reach2 issues2,
    find_transitive_type_usage sorted_order mixed_deps mixed_categories {[ "A" ]}
      = Some (used1, trans1) ∧
    find_transitive_type_usage sorted_order mixed_deps mixed_categories
                               {[ "A"; "O" ]} = Some (used2, trans2) ∧
    field_reachability sorted_order mixed_deps mixed_categories {[ "A" ]}
      = Some (reach1, issues1) ∧
    field_reachability sorted_order mixed_deps mixed_categories {[ "A"; "O" ]}
      = Some (reach2, issues2) ∧
    used1 ⊆ used2 ∧ reach1 ⊆ reach2 ∧ issues1 ∖ {[ "A"; "O" ]} ⊆ issues2.
Proof.
  apply (closures_monotone sorted_order mixed_deps mixed_categories
           {[ "A" ]} {[ "A"; "O" ]}).
  - exact sorted_order_valid.
  - set_solver.
Defined.

(** X5: When no source schema references a snippet, nothing is used, nothing is
    flagged and every registered snippet is orphaned. *)
Theorem no_direct_usage order deps cats all :
  valid_order order →
  compute_usage order deps cats all ∅ = Some (UsageSets ∅ ∅ ∅ ∅ all).
Proof.
  intros Hv.
  destruct (compute_usage_spec order deps cats all ∅ Hv)
    as (used & reach & -> & Hu & Hr).
  assert (used = ∅) as ->.
  { apply set_eq. intros y. rewrite Hu. split; [|by intros ?%not_elem_of_empty].
    induction 1 as [x Hx|x y _ IH _ _]; [by apply not_elem_of_empty in Hx|done]. }
  assert (reach = ∅) as ->.
  { apply set_eq. intros y. rewrite Hr. split; [|by intros ?%not_elem_of_empty].
    induction 1 as [x Hx|x y _ IH _]; [by apply not_elem_of_empty in Hx|done]. }
  assert (flagged cats ∅ (∅ ∖ ∅) = ∅) as ->.
  { apply set_eq. intros y. rewrite elem_of_flagged. set_solver. }
  assert ((∅ : gset string) ∖ ∅ = ∅) as -> by set_solver.
  assert (all ∖ ∅ = all) as -> by set_solver.
  done.
Qed.

Lemma no_direct_usage_witness :
  compute_usage reversed_order mixed_deps mixed_categories
                {[ "A"; "B"; "C"; "O"; "T" ]} ∅
  = Some (UsageSets ∅ ∅ ∅ ∅ {[ "A"; "B"; "C"; "O"; "T" ]}).
Proof.
  apply (no_direct_usage reversed_order mixed_deps mixed_categories
           {[ "A"; "B"; "C"; "O"; "T" ]}).
  exact reversed_order_valid.
Defined.

(** X6: A name is reported as a transitive type or as a flagged field only if it
    has a category and is the target of an edge. A referenced name that has
    no snippet file can therefore enter the results only by being directly
    used. *)
Theorem reported_snippets_are_registered order deps cats all direct :
  valid_order order →
  ∃ u, compute_usage order deps cats all direct = Some u ∧
       transitive_types u ⊆ dom cats ∩ graph_targets deps ∧
       transitive_field_issues u ⊆ dom cats ∩ graph_targets deps ∧
       (∀ y, y ∈ all_used_snippets u → y ∉ dom cats → y ∈ direct).
Proof.
  intros Hv.
  destruct (compute_usage_spec order deps cats all direct Hv)
    as (used & reach & -> & Hu & Hr).
  eexists. split; [done|].
  cbn [all_used_snippets transitive_types transitive_field_issues].
  split; [|split].
  - intros y [Hy Hnd]%elem_of_difference. apply Hu in Hy.
    apply elem_of_intersection. split.
    + apply type_reachable_inv in Hy as [Hd|Hty]; [done|].
      apply elem_of_dom. by rewrite Hty.
    + destruct (type_reachable_edge _ _ _ _ Hy Hnd) as (x & _ & Hx).
      by eapply deps_get_targets.
  - intros y (Hc & Hnd & [Hin _]%elem_of_difference)%elem_of_flagged.
    apply elem_of_intersection. split.
    + apply elem_of_dom. by rewrite Hc.
    + apply Hr in Hin. destruct (reachable_edge _ _ _ Hin Hnd) as (x & _ & Hx).
      by eapply deps_get_targets.
  - intros y [Hd|Hty]%Hu%type_reachable_inv Hnc; [done|].
    exfalso. apply Hnc, elem_of_dom. by rewrite Hty.
Qed.

Lemma reported_snippets_are_registered_witness :
  ∃ u, compute_usage sorted_order mixed_deps mixed_categories
                     {[ "A"; "B"; "C"; "O"; "T" ]} {[ "A"; "Missing" ]} = Some u ∧
       transitive_types u ⊆ dom mixed_categories ∩ graph_targets mixed_deps ∧
       transitive_field_issues u
         ⊆ dom mixed_categories ∩ graph_targets mixed_deps ∧
       (∀ y, y ∈ all_used_snippets u → y ∉ dom mixed_categories →
             y ∈ ({[ "A"; "Missing" ]} : gset string)).
Proof.
  apply (reported_snippets_are_registered sorted_order mixed_deps mixed_categories
           {[ "A"; "B"; "C"; "O"; "T" ]} {[ "A"; "Missing" ]}).
  exact sorted_order_valid.
Defined.

(** X7: When every categorised name is a registered snippet, the used snippets
    all belong to the registered ones exactly when the directly used ones
    do; a source schema that references a missing snippet makes the used
    count include a name outside [all_snippets]. *)
Theorem used_within_registered order deps cats all direct :
  valid_order order →
  dom cats ⊆ all →
  ∃ u, compute_usage order deps cats all direct = Some u ∧
       (all_used_snippets u ⊆ all ↔ direct ⊆ all) ∧
       (direct ⊆ all →
        size all = (size (all_used_snippets u) + size (orphaned_snippets u))%nat).
Proof.
  intros Hv Hdom.
  destruct (compute_usage_spec order deps cats all direct Hv)
    as (used & reach & -> & Hu & Hr).
  eexists. split; [done|].
  cbn [all_used_snippets orphaned_snippets].
  assert (direct ⊆ all → used ⊆ all) as Hin.
  { intros Hd y [Hy|Hty]%Hu%type_reachable_inv; [by apply Hd|].
    apply Hdom, elem_of_dom. by rewrite Hty. }
  split; [split; [|done]|].
  - intros Hsub y Hy. apply Hsub, Hu. by apply treach_start.
  - intros Hd. specialize (Hin Hd).
    rewrite (union_difference_L used all Hin) at 1.
    apply size_union. set_solver.
Qed.

Lemma used_within_registered_witness :
  ∃ u, compute_usage sorted_order scenario_deps scenario_categories
                     {[ "A"; "B"; "F"; "G" ]} {[ "A"; "G" ]} = Some u ∧
       (all_used_snippets u ⊆ {[ "A"; "B"; "F"; "G" ]} ↔
        {[ "A"; "G" ]} ⊆ ({[ "A"; "B"; "F"; "G" ]} : gset string)) ∧
       ({[ "A"; "G" ]} ⊆ ({[ "A"; "B"; "F"; "G" ]} : gset string) →
        size ({[ "A"; "B"; "F"; "G" ]} : gset string)
          = (size (all_used_snippets u) + size (orphaned_snippets u))%nat).
Proof.
  apply (used_within_registered sorted_order scenario_deps scenario_categories
           {[ "A"; "B"; "F"; "G" ]} {[ "A"; "G" ]}).
  - exact sorted_order_valid.
  - intros y Hy. apply elem_of_dom in Hy as [c Hc].
    unfold scenario_categories in Hc.
    repeat (apply lookup_insert_Some in Hc as [[<- _]|[_ Hc]]; [set_solver|]).
    apply lookup_singleton_Some in Hc as [<- _]. set_solver.
Defined.

(** X8: Which registered snippets are orphaned: a snippet that is not a type is
    orphaned exactly when no source schema references it directly, however
    many snippets reference it; a type snippet is orphaned exactly when no
    chain of references through type snippets leads to it from a directly
    used snippet. *)
Theorem orphans_characterised order deps cats all direct :
  valid_order order →
  ∃ u, compute_usage order deps cats all direct = Some u ∧
       (∀ n, n ∈ orphaned_snippets u ↔
             n ∈ all ∧ ¬ type_reachable deps cats direct n) ∧
       (∀ n, n ∈ all → cats !! n ≠ Some CType →
             (n ∈ orphaned_snippets u ↔ n ∉ direct)) ∧
       (∀ n, n ∈ direct → n ∉ orphaned_snippets u).
Proof.
  intros Hv.
  destruct (compute_usage_spec order deps cats all direct Hv)
    as (used & reach & -> & Hu & Hr).
  eexists. split; [done|]. cbn [orphaned_snippets].
  split; [|split].
  - intros n. rewrite elem_of_difference, Hu. done.
  - intros n Hall Hnt. rewrite elem_of_difference, Hu. split.
    + intros [_ Hnr] Hd. apply Hnr. by apply treach_start.
    + intros Hnd. split; [done|].
      intros [Hd|Hty]%type_reachable_inv; done.
  - intros n Hd [_ Hnu]%elem_of_difference. apply Hnu, Hu. by apply treach_start.
Qed.

Lemma orphans_characterised_witness :
  ∃ u, compute_usage sorted_order mixed_deps mixed_categories
                     {[ "A"; "B"; "C"; "O"; "T" ]} {[ "A" ]} = Some u ∧
       (∀ n, n ∈ orphaned_snippets u ↔
             n ∈ ({[ "A"; "B"; "C"; "O"; "T" ]} : gset string) ∧
             ¬ type_reachable mixed_deps mixed_categories {[ "A" ]} n) ∧
       (∀ n, n ∈ ({[ "A"; "B"; "C"; "O"; "T" ]} : gset string) →
             mixed_categories !! n ≠ Some CType →
             (n ∈ orphaned_snippets u ↔ n ∉ ({[ "A" ]} : gset string))) ∧
       (∀ n, n ∈ ({[ "A" ]} : gset string) → n ∉ orphaned_snippets u).
Proof.
  apply (orphans_characterised sorted_order mixed_deps mixed_categories
           {[ "A"; "B"; "C"; "O"; "T" ]} {[ "A" ]}).
  exact sorted_order_valid.
Defined.

(** ** Referrers printed by the report *)

Lemma elem_of_deps_get deps s y :
  y ∈ deps_get deps s ↔ ∃ tg, deps !! s = Some tg ∧ y ∈ tg.
Proof.
  unfold deps_get. destruct (deps !! s) as [tg|]; cbn.
  - split; [eauto|]. by intros (tg' & [= <-] & Hy).
  - split; [by intros ?%not_elem_of_empty|]. by intros (tg' & ? & _).
Qed.

Lemma elem_of_referencing_snippets deps snippet s :
  s ∈ referencing_snippets deps snippet ↔ snippet ∈ deps_get deps s.
Proof.
  unfold referencing_snippets.
  rewrite list_elem_of_fmap, elem_of_deps_get. split.
  - intros ([s' tg] & -> & [Hin Hm%elem_of_map_to_list]%list_elem_of_filter).
    cbn in *. eauto.
  - intros (tg & Hs & Hin). exists (s, tg). split; [done|].
    apply list_elem_of_filter. split; [done|]. by apply elem_of_map_to_list.
Qed.

(** X9: Every flagged field has at least one referring snippet, and one that the
    unrestricted pass reaches: the report always prints the "currently used
    via" line for it and never the "indirect usage" line. Every transitive
    type is referenced by a used snippet. *)
Theorem reported_snippets_have_referrers order deps cats all direct :
  valid_order order →
  ∃ u, compute_usage order deps cats all direct = Some u ∧
       (∀ F, F ∈ transitive_field_issues u →
             report_field_issue deps F ≠ IndirectUsage ∧
             ∃ s, s ∈ referencing_snippets deps F ∧ reachable deps direct s) ∧
       (∀ t, t ∈ transitive_types u →
             ∃ s, s ∈ referencing_snippets deps t ∧ s ∈ all_used_snippets u).
Proof.
  intros Hv.
  destruct (compute_usage_spec order deps cats all direct Hv)
    as (used & reach & -> & Hu & Hr).
  eexists. split; [done|].
  cbn [all_used_snippets transitive_types transitive_field_issues].
  split.
  - intros F (Hc & Hnd & [Hin _]%elem_of_difference)%elem_of_flagged.
    apply Hr in Hin. destruct (reachable_edge _ _ _ Hin Hnd) as (s & Hs & HF).
    apply elem_of_referencing_snippets in HF.
    split; [|eauto].
    unfold report_field_issue.
    destruct (referencing_snippets deps F); [by apply elem_of_nil in HF|done].
  - intros t [Hin Hnd]%elem_of_difference.
    apply Hu in Hin. destruct (type_reachable_edge _ _ _ _ Hin Hnd) as (s & Hs & Ht).
    exists s. split; [by apply elem_of_referencing_snippets|by apply Hu].
Qed.

Lemma reported_snippets_have_referrers_witness :
  ∃ u, compute_usage sorted_order mixed_deps mixed_categories
                     {[ "A"; "B"; "C"; "O"; "T" ]} {[ "A" ]} = Some u ∧
       (∀ F, F ∈ transitive_field_issues u →
             report_field_issue mixed_deps F ≠ IndirectUsage ∧
             ∃ s, s ∈ referencing_snippets mixed_deps F ∧
                  reachable mixed_deps {[ "A" ]} s) ∧
       (∀ t, t ∈ transitive_types u →
             ∃ s, s ∈ referencing_snippets mixed_deps t ∧ s ∈ all_used_snippets u).
Proof.
  apply (reported_snippets_have_referrers sorted_order mixed_deps mixed_categories
           {[ "A"; "B"; "C"; "O"; "T" ]} {[ "A" ]}).
  exact sorted_order_valid.
Defined.

(** ** Shape of the dependency graph *)

Lemma lookup_add_deps name refs d n :
  foldl (add_dep name) d refs !! n =
  if decide (n = name ∧ refs ≠ [])
  then Some (deps_get d name ∪ list_to_set (ref_snippet <$> refs))
  else d !! n.
Proof.
  revert d. induction refs as [|r refs IH]; intros d; cbn [foldl].
  - rewrite decide_False; [done|]. by intros [_ ?].
  - rewrite IH. destruct (decide (n = name)) as [->|Hne].
    + rewrite (decide_True (P := name = name ∧ r :: refs ≠ [])) by done.
      destruct (decide (name = name ∧ refs ≠ [])) as [_|Hn].
      * f_equal. rewrite deps_get_add_dep, decide_True by done.
        rewrite fmap_cons, list_to_set_cons. set_solver.
      * assert (refs = []) as ->.
        { destruct refs; [done|]. exfalso. by apply Hn. }
        unfold add_dep. rewrite lookup_insert_eq. f_equal. cbn. set_solver.
    + rewrite !decide_False by (by intros [? _]).
      unfold add_dep. by rewrite lookup_insert_ne.
Qed.

Lemma scan_deps_entries_ok g f :
  deps_entries_ok g → deps_entries_ok (scan_snippet_file g f).
Proof.
  intros Hok n tg. unfold scan_snippet_file. cbn [snippet_deps snippet_files].
  assert (∀ tg', snippet_deps g !! n = Some tg' →
                 tg' ≠ ∅ ∧
                 is_Some (<[stem (file_path f) := file_path f]>
                            (snippet_files g) !! n)) as Hold.
  { intros tg' [Hne Hreg]%Hok. split; [done|].
    destruct (decide (stem (file_path f) = n)) as [->|Hn].
    - rewrite lookup_insert_eq. eauto.
    - by rewrite lookup_insert_ne. }
  destruct (load_json_file f) as [c|]; [destruct (truthy c)|]; [|by apply Hold..].
  rewrite lookup_add_deps.
  destruct (decide _) as [[-> Hrefs]|_]; [|by apply Hold].
  intros [= <-]. rewrite lookup_insert_eq. split; [|eauto].
  destruct (find_snippet_references c (file_path f)) as [|r rs]; [done|].
  rewrite fmap_cons, list_to_set_cons. set_solver.
Qed.

Lemma scan_all_deps_entries_ok found g :
  deps_entries_ok g → deps_entries_ok (foldl scan_snippet_file g found).
Proof.
  revert g. induction found as [|f found IH]; intros g Hok; cbn [foldl]; [done|].
  by apply IH, scan_deps_entries_ok.
Qed.

Lemma scan_registered_names g f :
  dom (snippet_files (scan_snippet_file g f))
    = {[stem (file_path f)]} ∪ dom (snippet_files g) ∧
  dom (snippet_categories (scan_snippet_file g f))
    = {[stem (file_path f)]} ∪ dom (snippet_categories g).
Proof.
  unfold scan_snippet_file. cbn [snippet_files snippet_categories].
  by rewrite !dom_insert_L.
Qed.

Lemma scan_all_registered found g :
  dom (snippet_files (foldl scan_snippet_file g found))
    = list_to_set (stems found) ∪ dom (snippet_files g) ∧
  dom (snippet_categories (foldl scan_snippet_file g found))
    = list_to_set (stems found) ∪ dom (snippet_categories g).
Proof.
  revert g. induction found as [|f found IH]; intros g; cbn [foldl].
  - cbn. split; set_solver.
  - destruct (IH (scan_snippet_file g f)) as [-> ->].
    destruct (scan_registered_names g f) as [-> ->].
    unfold stems. rewrite fmap_cons, list_to_set_cons.
    split; set_solver.
Qed.

Lemma scan_all_last found g n :
  snippet_files (foldl scan_snippet_file g found) !! n =
    match last (files_named n found) with
    | Some f => Some (file_path f)
    | None => snippet_files g !! n
    end ∧
  snippet_categories (foldl scan_snippet_file g found) !! n =
    match last (files_named n found) with
    | Some f => Some (path_category (file_path f))
    | None => snippet_categories g !! n
    end.
Proof.
  revert g. induction found as [|f found IH]; intros g; cbn [foldl]; [done|].
  destruct (IH (scan_snippet_file g f)) as [-> ->]. unfold files_named.
  destruct (decide (stem (file_path f) = n)) as [Hn|Hn].
  - rewrite filter_cons_True by done. rewrite last_cons.
    destruct (last (filter _ found)); [done|].
    rewrite <-Hn. apply scan_registers.
  - rewrite filter_cons_False by done.
    destruct (last (filter _ found)); [done|].
    by apply scan_other_name.
Qed.

Lemma build_registered (found : list schema_file) :
  let g := build_snippet_dependency_graph true found in
  dom (snippet_files g) = list_to_set (stems found) ∧
  dom (snippet_categories g) = list_to_set (stems found).
Proof.
  cbv zeta. unfold build_snippet_dependency_graph.
  destruct (scan_all_registered found (SnippetGraph ∅ ∅ ∅)) as [Hf Hc].
  cbn [snippet_files snippet_categories] in Hf, Hc.
  rewrite dom_empty_L, (right_id_L ∅ (∪)) in Hf.
  rewrite dom_empty_L, (right_id_L ∅ (∪)) in Hc.
  done.
Qed.

Lemma build_deps_entries_ok (found : list schema_file) :
  deps_entries_ok (build_snippet_dependency_graph true found).
Proof.
  unfold build_snippet_dependency_graph.
  apply scan_all_deps_entries_ok. intros n tg. cbn. by rewrite lookup_empty.
Qed.

Lemma build_deps_lookup (found : list schema_file) n :
  snippet_deps (build_snippet_dependency_graph true found) !! n =
  let targets := ⋃ (file_targets <$> files_named n found) in
  if decide (targets = ∅) then None else Some targets.
Proof.
  pose proof (build_deps_entries_ok found) as Hok.
  unfold build_snippet_dependency_graph in *.
  pose proof (scan_all_deps_targets found (SnippetGraph ∅ ∅ ∅) n) as Ht.
  cbn [snippet_deps] in Ht. unfold deps_get at 2 in Ht.
  rewrite lookup_empty in Ht. cbn in Ht. rewrite (left_id_L ∅ (∪)) in Ht.
  cbv zeta. rewrite <-Ht. unfold deps_get.
  destruct (snippet_deps _ !! n) as [tg|] eqn:Hn; cbn.
  - destruct (Hok n tg Hn) as [Hne _]. by rewrite decide_False.
  - by rewrite decide_True.
Qed.

Lemma build_last (found : list schema_file) n :
  let g := build_snippet_dependency_graph true found in
  snippet_files g !! n = file_path <$> last (files_named n found) ∧
  snippet_categories g !! n
    = path_category ∘ file_path <$> last (files_named n found).
Proof.
  cbv zeta. unfold build_snippet_dependency_graph.
  destruct (scan_all_last found (SnippetGraph ∅ ∅ ∅) n) as [-> ->].
  destruct (last _); [done|]. cbn. by rewrite !lookup_empty.
Qed.

(** X10: The graph the builder returns: the registered names are the stems of the
    files found, in both dictionaries; an entry of [snippet_deps] exists
    exactly for the names whose files contain a reference, and holds the
    union of the references of all files with that stem; the recorded path
    and category are those of the last file with that stem. *)
Theorem graph_shape (found : list schema_file) :
  let g := build_snippet_dependency_graph true found in
  dom (snippet_files g) = list_to_set (stems found) ∧
  dom (snippet_categories g) = dom (snippet_files g) ∧
  dom (snippet_deps g) ⊆ dom (snippet_files g) ∧
  (∀ n, snippet_deps g !! n =
        let targets := ⋃ (file_targets <$> files_named n found) in
        if decide (targets = ∅) then None else Some targets) ∧
  (∀ n, snippet_files g !! n = file_path <$> last (files_named n found)) ∧
  (∀ n, snippet_categories g !! n
        = path_category ∘ file_path <$> last (files_named n found)).
Proof.
  cbv zeta. destruct (build_registered found) as [Hf Hc]. cbv zeta in Hf, Hc.
  split; [done|]. split; [by rewrite Hf, Hc|].
  split; [|split; [|split]].
  - intros n [tg Hn]%elem_of_dom. apply elem_of_dom.
    by apply (build_deps_entries_ok found n tg).
  - apply build_deps_lookup.
  - intros n. by destruct (build_last found n) as [-> _].
  - intros n. by destruct (build_last found n) as [_ ->].
Qed.

Lemma files_named_unique found found' n :
  found ≡ₚ found' → NoDup (stems found) →
  files_named n found = files_named n found'.
Proof.
  intros Hp Hnd.
  assert (files_named n found ≡ₚ files_named n found') as Hpn.
  { unfold files_named. by rewrite Hp. }
  assert (List.length (files_named n found) ≤ 1)%nat as Hlen.
  { clear Hp Hpn. unfold files_named, stems in *.
    induction found as [|f found IH]; [cbn; lia|].
    rewrite fmap_cons in Hnd. apply NoDup_cons in Hnd as [Hnin Hnd].
    destruct (decide (stem (file_path f) = n)) as [Hn|Hn].
    - rewrite filter_cons_True by done.
      destruct (filter (λ f0, stem (file_path f0) = n) found) as [|x l] eqn:Hfl;
        [cbn; lia|].
      assert (x ∈ filter (λ f0, stem (file_path f0) = n) found) as Hx.
      { rewrite Hfl. by left. }
      apply list_elem_of_filter in Hx as [Hxn Hx].
      exfalso. apply Hnin. apply list_elem_of_fmap. exists x. split; [congruence|done].
    - rewrite filter_cons_False by done. by apply IH. }
  destruct (files_named n found) as [|a [|b l]]; cbn in Hlen.
  - by apply Permutation_nil_l in Hpn.
  - by apply Permutation_singleton_l in Hpn.
  - lia.
Qed.

Lemma build_deps_permutation (found found' : list schema_file) :
  found ≡ₚ found' →
  snippet_deps (build_snippet_dependency_graph true found)
  = snippet_deps (build_snippet_dependency_graph true found').
Proof.
  intros Hp. apply map_eq. intros n. rewrite !build_deps_lookup.
  assert (⋃ (file_targets <$> files_named n found)
          = ⋃ (file_targets <$> files_named n found')) as ->; [|done].
  unfold files_named. by rewrite Hp.
Qed.

Lemma build_permutation (found found' : list schema_file) :
  found ≡ₚ found' → NoDup (stems found) →
  build_snippet_dependency_graph true found
  = build_snippet_dependency_graph true found'.
Proof.
  intros Hp Hnd.
  pose proof (build_deps_permutation found found' Hp) as Hdeps.
  pose proof (λ n, build_last found n) as Hl.
  pose proof (λ n, build_last found' n) as Hl'.
  cbv zeta in Hl, Hl'.
  destruct (build_snippet_dependency_graph true found) as [d fl c].
  destruct (build_snippet_dependency_graph true found') as [d' fl' c'].
  cbn [snippet_deps snippet_files snippet_categories] in *.
  f_equal; [done| |].
  - apply map_eq. intros n. destruct (Hl n) as [-> _], (Hl' n) as [-> _].
    by rewrite (files_named_unique found found' n Hp Hnd).
  - apply map_eq. intros n. destruct (Hl n) as [_ ->], (Hl' n) as [_ ->].
    by rewrite (files_named_unique found found' n Hp Hnd).
Qed.

(** X11: The order in which the snippet files are scanned does not change the
    edges or the set of registered names; when no two files share a stem it
    does not change anything of the graph. *)
Theorem graph_scan_order (found found' : list schema_file) :
  found ≡ₚ found' →
  let g := build_snippet_dependency_graph true found in
  let g' := build_snippet_dependency_graph true found' in
  snippet_deps g = snippet_deps g' ∧
  dom (snippet_files g) = dom (snippet_files g') ∧
  dom (snippet_categories g) = dom (snippet_categories g') ∧
  (NoDup (stems found) → g = g').
Proof.
  intros Hp. cbv zeta.
  destruct (build_registered found) as [Hf Hc].
  destruct (build_registered found') as [Hf' Hc'].
  cbv zeta in *.
  assert (list_to_set (stems found) = list_to_set (C := gset string) (stems found'))
    as Hst.
  { unfold stems. by rewrite Hp. }
  split; [by apply build_deps_permutation|].
  split; [by rewrite Hf, Hf', Hst|].
  split; [by rewrite Hc, Hc', Hst|].
  by apply build_permutation.
Qed.

Lemma graph_scan_order_witness :
  let found := snippets_rglob scenario_tree in
  let g := build_snippet_dependency_graph true found in
  let g' := build_snippet_dependency_graph true (reverse found) in
  snippet_deps g = snippet_deps g' ∧
  dom (snippet_files g) = dom (snippet_files g') ∧
  dom (snippet_categories g) = dom (snippet_categories g') ∧
  g = g'.
Proof.
  destruct (graph_scan_order (snippets_rglob scenario_tree)
              (reverse (snippets_rglob scenario_tree)))
    as (H1 & H2 & H3 & H4).
  - apply Permutation_sym, reverse_Permutation.
  - cbv zeta in *. split; [exact H1|]. split; [exact H2|]. split; [exact H3|].
    apply H4. apply (bool_decide_unpack _). vm_compute. exact I.
Defined.

(** ** Category breakdown *)

Lemma elem_of_snippets_of_category cats c n :
  n ∈ snippets_of_category cats c ↔ cats !! n = Some c.
Proof.
  unfold snippets_of_category. rewrite elem_of_dom. split.
  - intros [c' [Hn Hc]%map_lookup_filter_Some]. cbn in Hc. by subst.
  - intros Hn. exists c. by apply map_lookup_filter_Some.
Qed.

(** X12: The field, type and other snippets of the breakdown line are pairwise
    disjoint and together are all the registered snippets, so the three
    counts add up to the total. *)
Theorem category_breakdown (found : list schema_file) :
  let g := build_snippet_dependency_graph true found in
  let fields := snippets_of_category (snippet_categories g) CField in
  let types := snippets_of_category (snippet_categories g) CType in
  let others := snippets_of_category (snippet_categories g) COther in
  fields ∪ types ∪ others = dom (snippet_files g) ∧
  fields ## types ∧ fields ## others ∧ types ## others ∧
  size (dom (snippet_files g)) = (size fields + size types + size others)%nat.
Proof.
  cbv zeta. destruct (build_registered found) as [Hf Hc]. cbv zeta in Hf, Hc.
  rewrite Hf, <-Hc.
  set (cats := snippet_categories (build_snippet_dependency_graph true found)).
  assert (snippets_of_category cats CField ## snippets_of_category cats CType) as H1.
  { intros n. rewrite !elem_of_snippets_of_category. congruence. }
  assert (snippets_of_category cats CField ## snippets_of_category cats COther) as H2.
  { intros n. rewrite !elem_of_snippets_of_category. congruence. }
  assert (snippets_of_category cats CType ## snippets_of_category cats COther) as H3.
  { intros n. rewrite !elem_of_snippets_of_category. congruence. }
  assert (snippets_of_category cats CField ∪ snippets_of_category cats CType
          ∪ snippets_of_category cats COther = dom cats) as Hall.
  { apply set_eq. intros n.
    rewrite !elem_of_union, !elem_of_snippets_of_category, elem_of_dom.
    split; [intros [[->| ->]| ->]; eauto|].
    intros [[| |] Hn]; eauto. }
  split; [done|]. do 3 (split; [done|]).
  rewrite <-Hall, !size_union; [done|done|set_solver].
Qed.

(** ** The whole analysis *)

Lemma collect_direct_targets acc f :
  collect_direct acc f = acc ∪ file_targets f.
Proof.
  unfold collect_direct, file_targets.
  destruct (load_json_file f) as [c|]; [destruct (truthy c)|]; [|set_solver..].
  generalize (find_snippet_references c (file_path f)). intros refs. revert acc.
  induction refs as [|r refs IH]; intros acc; cbn [foldl].
  - cbn. set_solver.
  - rewrite IH, fmap_cons, list_to_set_cons. set_solver.
Qed.

Lemma collect_all_direct sources acc :
  foldl collect_direct acc sources = acc ∪ ⋃ (file_targets <$> sources).
Proof.
  revert acc. induction sources as [|f sources IH]; intros acc; cbn [foldl].
  - cbn. set_solver.
  - rewrite IH, collect_direct_targets, fmap_cons, union_list_cons. set_solver.
Qed.

Lemma no_edges_usage order cats all direct :
  valid_order order →
  compute_usage order ∅ cats all direct
    = Some (UsageSets direct direct ∅ ∅ (all ∖ direct)).
Proof.
  intros Hv.
  destruct (compute_usage_spec order ∅ cats all direct Hv)
    as (used & reach & -> & Hu & Hr).
  assert (∀ x y, y ∉ deps_get (∅ : dep_graph) x) as Hno.
  { intros x y. unfold deps_get. rewrite lookup_empty. cbn. set_solver. }
  assert (used = direct) as ->.
  { apply set_eq. intros y. rewrite Hu. split; [|by apply treach_start].
    destruct 1 as [x Hx|x y _ Hy _]; [done|]. by apply Hno in Hy. }
  assert (reach = direct) as ->.
  { apply set_eq. intros y. rewrite Hr. split; [|by apply reach_start].
    destruct 1 as [x Hx|x y _ Hy]; [done|]. by apply Hno in Hy. }
  assert (direct ∖ direct = ∅) as -> by set_solver.
  assert (flagged cats direct ∅ = ∅) as ->; [|done].
  apply set_eq. intros y. rewrite elem_of_flagged. set_solver.
Qed.

(** The sets computed when [schemas/snippets] does not exist. *)
Lemma missing_directory_sets order (files : list schema_file) :
  valid_order order →
  let direct := ⋃ (file_targets <$> source_schemas (SchemaTree false files)) in
  analyze_schemas order (SchemaTree false files)
    = Some (UsageSets direct direct ∅ ∅ ∅).
Proof.
  intros Hv. cbv zeta. unfold analyze_schemas.
  cbn [snippets_dir_exists build_snippet_dependency_graph
       snippet_deps snippet_files snippet_categories].
  rewrite collect_all_direct, (left_id_L ∅ (∪)), dom_empty_L.
  rewrite (no_edges_usage order ∅ ∅ _ Hv).
  do 2 f_equal. set_solver.
Qed.

(** X14: A file that is not below [schemas/snippets/] and whose path contains
    "assembled" or "snippets" is read by neither scan: removing it changes
    nothing of the analysis. *)
Theorem unscanned_files_ignored order dir_exists
    (before after : list schema_file) (f : schema_file) :
  startswith (file_path f) "schemas/snippets/" = false →
  contains "assembled" (file_path f) || contains "snippets" (file_path f) = true →
  analyze_schemas order (SchemaTree dir_exists (before ++ f :: after))
    = analyze_schemas order (SchemaTree dir_exists (before ++ after)) ∧
  scan_source_schemas (SchemaTree dir_exists (before ++ f :: after))
    = scan_source_schemas (SchemaTree dir_exists (before ++ after)).
Proof.
  intros Hpre Hskip.
  assert (snippets_rglob (SchemaTree dir_exists (before ++ f :: after))
          = snippets_rglob (SchemaTree dir_exists (before ++ after))) as Hsn.
  { unfold snippets_rglob. cbn [schema_files].
    rewrite !filter_app, filter_cons_False; [done|]. by rewrite Hpre. }
  assert (source_schemas (SchemaTree dir_exists (before ++ f :: after))
          = source_schemas (SchemaTree dir_exists (before ++ after))) as Hso.
  { unfold source_schemas. cbn [schema_files].
    rewrite !filter_app, filter_cons_False; [done|].
    intros [Ha Hs]. rewrite Ha, Hs in Hskip. done. }
  unfold analyze_schemas, scan_source_schemas.
  cbn [snippets_dir_exists]. by rewrite Hsn, Hso.
Qed.

Lemma unscanned_files_ignored_witness :
  analyze_schemas sorted_order
    (SchemaTree true
       ([] ++ SchemaFile "schemas/assembled/Thing.json"
                (Some (JDict [("$ref", JStr "../snippets/fields/F.json")]))
           :: schema_files scenario_tree))
  = analyze_schemas sorted_order
      (SchemaTree true ([] ++ schema_files scenario_tree)) ∧
  scan_source_schemas
    (SchemaTree true
       ([] ++ SchemaFile "schemas/assembled/Thing.json"
                (Some (JDict [("$ref", JStr "../snippets/fields/F.json")]))
           :: schema_files scenario_tree))
  = scan_source_schemas (SchemaTree true ([] ++ schema_files scenario_tree)).
Proof.
  apply (unscanned_files_ignored sorted_order true []
           (schema_files scenario_tree)
           (SchemaFile "schemas/assembled/Thing.json"
              (Some (JDict [("$ref", JStr "../snippets/fields/F.json")]))));
    reflexivity.
Defined.

(** X15: The order in which [rglob] lists the files does not change the result of
    the analysis, provided no two snippet files share a stem. *)
Theorem analysis_scan_order order dir_exists (files files' : list schema_file) :
  files ≡ₚ files' →
  NoDup (stems (snippets_rglob (SchemaTree dir_exists files))) →
  analyze_schemas order (SchemaTree dir_exists files)
    = analyze_schemas order (SchemaTree dir_exists files').
Proof.
  intros Hp Hnd. unfold analyze_schemas. cbn [snippets_dir_exists].
  assert (snippets_rglob (SchemaTree dir_exists files)
          ≡ₚ snippets_rglob (SchemaTree dir_exists files')) as Hsn.
  { unfold snippets_rglob. cbn [schema_files]. by rewrite Hp. }
  assert (build_snippet_dependency_graph dir_exists
            (snippets_rglob (SchemaTree dir_exists files))
          = build_snippet_dependency_graph dir_exists
              (snippets_rglob (SchemaTree dir_exists files'))) as ->.
  { destruct dir_exists; [|done].
    by apply build_permutation. }
  rewrite !collect_all_direct.
  assert (source_schemas (SchemaTree dir_exists files)
          ≡ₚ source_schemas (SchemaTree dir_exists files')) as Hso.
  { unfold source_schemas. cbn [schema_files]. by rewrite Hp. }
  by rewrite Hso.
Qed.

Lemma analysis_scan_order_witness :
  analyze_schemas sorted_order scenario_tree
  = analyze_schemas sorted_order
      (SchemaTree true (reverse (schema_files scenario_tree))).
Proof.
  apply (analysis_scan_order sorted_order true (schema_files scenario_tree)
           (reverse (schema_files scenario_tree))).
  - apply Permutation_sym, reverse_Permutation.
  - apply (bool_decide_unpack _). vm_compute. exact I.
Defined.

(** X16: A snippet that a loadable source schema references through a string
    containing "snippets" is directly used and is never reported as
    orphaned, whatever the directory and extension the string names. *)
Theorem referenced_snippet_not_orphaned order tree (s : schema_file)
    (c : json) (v : string) :
  valid_order order →
  s ∈ schema_files tree →
  contains "assembled" (file_path s) = false →
  contains "snippets" (file_path s) = false →
  load_json_file s = Some c →
  ref_value_in c v →
  contains "snippets" v = true →
  ∃ u, analyze_schemas order tree = Some u ∧
       stem v ∈ direct_used_snippets u ∧
       stem v ∈ all_used_snippets u ∧
       stem v ∉ orphaned_snippets u.
Proof.
  intros Hv Hs Ha Hsn Hload Href Hcont.
  unfold analyze_schemas.
  set (g := build_snippet_dependency_graph _ _).
  rewrite collect_all_direct, (left_id_L ∅ (∪)).
  set (direct := ⋃ _).
  assert (stem v ∈ direct) as Hin.
  { apply elem_of_union_list. exists (file_targets s). split.
    - apply list_elem_of_fmap. exists s. split; [done|].
      apply list_elem_of_filter. done.
    - unfold file_targets. rewrite Hload, (ref_value_in_truthy _ _ Href).
      assert (∃ c', ref_flags (contains "snippets" (file_path s)) (file_path s) v
                    = (true, c')) as [c' Hfl].
      { unfold ref_flags. rewrite Hcont. eauto. }
      destruct (extract_refs_complete _ _ _ _ _ Href Hfl "")
        as (r & Hr & _ & Hst & _).
      apply elem_of_list_to_set, list_elem_of_fmap. exists r. split; [done|].
      unfold find_snippet_references.
      by rewrite (ref_value_in_truthy _ _ Href). }
  destruct (compute_usage_spec order (snippet_deps g) (snippet_categories g)
              (dom (snippet_files g)) direct Hv) as (used & reach & -> & Hu & _).
  eexists. split; [done|].
  cbn [direct_used_snippets all_used_snippets orphaned_snippets].
  assert (stem v ∈ used) by (apply Hu; by apply treach_start).
  split; [done|]. split; [done|]. set_solver.
Qed.

Lemma referenced_snippet_not_orphaned_witness :
  ∃ u, analyze_schemas sorted_order scenario_tree = Some u ∧
       stem "../snippets/fields/G.json" ∈ direct_used_snippets u ∧
       stem "../snippets/fields/G.json" ∈ all_used_snippets u ∧
       stem "../snippets/fields/G.json" ∉ orphaned_snippets u.
Proof.
  apply (referenced_snippet_not_orphaned sorted_order scenario_tree
           (SchemaFile "schemas/entities/Thing.json"
              (Some (JDict [("properties",
                       JDict [("a", JDict [("$ref",
                                            JStr "../snippets/types/A.json")]);
                              ("g", JDict [("$ref",
                                            JStr "../snippets/fields/G.json")])])])))
           (JDict [("properties",
                       JDict [("a", JDict [("$ref",
                                            JStr "../snippets/types/A.json")]);
                              ("g", JDict [("$ref",
                                            JStr "../snippets/fields/G.json")])])])
           "../snippets/fields/G.json").
  - exact sorted_order_valid.
  - cbn. do 4 right. left.
  - reflexivity.
  - reflexivity.
  - reflexivity.
  - eapply rv_dict; [left|].
    eapply rv_dict; [right; left|].
    apply rv_here. left.
  - reflexivity.
Defined.

(** ** Inline definition counts *)

Lemma pc_add_add p a b c d a' b' c' d' :
  pc_add (pc_add p a b c d) a' b' c' d'
  = pc_add p (a + a') (b + b') (c + c') (d + d').
Proof. unfold pc_add. cbn. f_equal; lia. Qed.

Lemma pc_add_zero p : pc_add p 0 0 0 0 = p.
Proof. destruct p. unfold pc_add. cbn. f_equal; lia. Qed.

Lemma count_node_delta entries n p :
  ∃ a b c d,
    count_node entries (n, p) = (n + (a + b + c), pc_add p a b c d)%nat ∧
    (a ≤ 1 ∧ b ≤ 1 ∧ c ≤ 1 ∧ d ≤ 4)%nat.
Proof.
  destruct p as [td ed cp pp]. unfold count_node, property_keys.
  exists (Nat.b2n (has_key "type" entries && has_key "properties" entries)),
         (Nat.b2n (has_key "enum" entries)),
         (Nat.b2n (has_key "minimum" entries || has_key "maximum" entries)),
         (Nat.b2n (has_key "entity_type" entries)
          + Nat.b2n (has_key "status" entries)
          + Nat.b2n (has_key "description" entries)
          + Nat.b2n (has_key "entity_id" entries))%nat.
  destruct (has_key "type" entries && has_key "properties" entries),
    (has_key "enum" entries),
    (has_key "minimum" entries || has_key "maximum" entries);
    cbn [foldl Nat.b2n type_definitions enum_definitions constraint_patterns
         property_patterns];
    destruct (has_key "entity_type" entries), (has_key "status" entries),
      (has_key "description" entries), (has_key "entity_id" entries);
    unfold pc_add;
    cbn [Nat.b2n type_definitions enum_definitions constraint_patterns
         property_patterns];
    (split; [f_equal; [lia|f_equal; lia]|lia]).
Qed.

Lemma count_patterns_delta obj :
  ∀ n p, ∃ a b c d,
    count_patterns obj (n, p) = (n + (a + b + c), pc_add p a b c d)%nat ∧
    (a ≤ dict_nodes obj ∧ b ≤ dict_nodes obj ∧ c ≤ dict_nodes obj
     ∧ d ≤ 4 * dict_nodes obj)%nat.
Proof.
  assert (∀ n p, ∃ a b c d,
            (n, p) = (n + (a + b + c), pc_add p a b c d)%nat ∧
            (a ≤ 0 ∧ b ≤ 0 ∧ c ≤ 0 ∧ d ≤ 4 * 0)%nat) as Hleaf.
  { intros n p. exists 0%nat, 0%nat, 0%nat, 0%nat.
    rewrite pc_add_zero. split; [f_equal; lia|lia]. }
  induction obj as [| | | |items IH|entries IH] using json_nested_ind;
    try exact Hleaf.
  - cbn [count_patterns dict_nodes].
    induction IH as [|item items Hitem _ IHitems]; intros n p; cbn [foldl foldr].
    + apply Hleaf.
    + destruct (Hitem n p) as (a & b & c & d & -> & Hb).
      destruct (IHitems (n + (a + b + c))%nat (pc_add p a b c d))
        as (a' & b' & c' & d' & -> & Hb').
      exists (a + a')%nat, (b + b')%nat, (c + c')%nat, (d + d')%nat.
      rewrite pc_add_add. split; [f_equal; lia|lia].
  - intros n p. cbn [count_patterns dict_nodes].
    destruct (count_node_delta entries n p) as (a0 & b0 & c0 & d0 & -> & Hb0).
    assert (∀ n p, ∃ a b c d,
              foldl (λ st' entry, count_patterns entry.2 st') (n, p) entries
                = (n + (a + b + c), pc_add p a b c d)%nat ∧
              (a ≤ foldr (λ entry acc, dict_nodes entry.2 + acc) 0 entries ∧
               b ≤ foldr (λ entry acc, dict_nodes entry.2 + acc) 0 entries ∧
               c ≤ foldr (λ entry acc, dict_nodes entry.2 + acc) 0 entries ∧
               d ≤ 4 * foldr (λ entry acc, dict_nodes entry.2 + acc) 0 entries)%nat)
      as Hfold.
    { clear n p a0 b0 c0 d0 Hb0.
      induction IH as [|entry entries Hentry _ IHentries]; intros n p;
        cbn [foldl foldr].
      - apply Hleaf.
      - destruct (Hentry n p) as (a & b & c & d & -> & Hb).
        destruct (IHentries (n + (a + b + c))%nat (pc_add p a b c d))
          as (a' & b' & c' & d' & -> & Hb').
        exists (a + a')%nat, (b + b')%nat, (c + c')%nat, (d + d')%nat.
        rewrite pc_add_add. split; [f_equal; lia|lia]. }
    destruct (Hfold (n + (a0 + b0 + c0))%nat (pc_add p a0 b0 c0 d0))
      as (a & b & c & d & -> & Hb).
    exists (a0 + a)%nat, (b0 + b)%nat, (c0 + c)%nat, (d0 + d)%nat.
    rewrite pc_add_add. split; [f_equal; lia|lia].
Qed.

Lemma count_inline_delta (schema_content : json) :
  ∃ a b c d,
    count_inline_definitions schema_content
      = ((a + b + c)%nat, PatternCounts a b c d) ∧
    (a ≤ dict_nodes schema_content ∧ b ≤ dict_nodes schema_content
     ∧ c ≤ dict_nodes schema_content ∧ d ≤ 4 * dict_nodes schema_content)%nat.
Proof.
  unfold count_inline_definitions.
  destruct (truthy schema_content).
  - destruct (count_patterns_delta schema_content 0 (PatternCounts 0 0 0 0))
      as (a & b & c & d & -> & Hb).
    exists a, b, c, d. by unfold pc_add.
  - exists 0%nat, 0%nat, 0%nat, 0%nat. split; [done|lia].
Qed.

(** X17: The inline count is the sum of the type, enum and constraint counters
    (the property counter is not part of it); no counter exceeds the number
    of objects in the document, the inline count stays within three times
    that number and the property counter within four times. *)
Theorem inline_count_is_sum_of_patterns (schema_content : json) :
  let '(inline_count, patterns) := count_inline_definitions schema_content in
  inline_count = (type_definitions patterns + enum_definitions patterns
                  + constraint_patterns patterns)%nat ∧
  (type_definitions patterns ≤ dict_nodes schema_content)%nat ∧
  (enum_definitions patterns ≤ dict_nodes schema_content)%nat ∧
  (constraint_patterns patterns ≤ dict_nodes schema_content)%nat ∧
  (inline_count ≤ 3 * dict_nodes schema_content)%nat ∧
  (property_patterns patterns ≤ 4 * dict_nodes schema_content)%nat.
Proof.
  destruct (count_inline_delta schema_content) as (a & b & c & d & -> & Hb).
  cbn [type_definitions enum_definitions constraint_patterns property_patterns].
  lia.
Qed.

(** ** Bookkeeping of the loop over the source schemas *)

Lemma usage_total_insert usage n (sites : list usage_site) :
  usage_total (<[n := sites]> usage)
  = (List.length sites + usage_total (delete n usage))%nat.
Proof.
  unfold usage_total. rewrite <-insert_delete_eq.
  apply (map_fold_insert_L
           (λ (_ : string) (l : list usage_site) acc, List.length l + acc)%nat
           0%nat n sites (delete n usage));
    [|by apply lookup_delete_eq].
  intros. lia.
Qed.

Lemma usage_total_lookup usage n :
  usage_total usage
  = (List.length (default [] (usage !! n)) + usage_total (delete n usage))%nat.
Proof.
  destruct (usage !! n) as [sites|] eqn:Hn; cbn.
  - unfold usage_total.
    apply (map_fold_delete_L
             (λ (_ : string) (l : list usage_site) acc, List.length l + acc)%nat
             0%nat n sites usage); [|done].
    intros. lia.
  - by rewrite delete_id.
Qed.

Lemma record_usage_step file d usage r :
  ∃ usage', record_usage file (d, usage) r = (d ∪ {[ref_snippet r]}, usage') ∧
            dom usage' = dom usage ∪ {[ref_snippet r]} ∧
            usage_total usage' = S (usage_total usage) ∧
            (usage_lists_nonempty usage → usage_lists_nonempty usage').
Proof.
  unfold record_usage. eexists. split; [done|]. split; [|split].
  - rewrite dom_insert_L. set_solver.
  - rewrite usage_total_insert, (usage_total_lookup usage (ref_snippet r)).
    rewrite length_app. cbn. lia.
  - intros Hne n sites.
    destruct (decide (n = ref_snippet r)) as [->|Hn].
    + rewrite lookup_insert_eq. intros [= <-].
      by destruct (default [] _).
    + rewrite lookup_insert_ne by done. apply Hne.
Qed.

Lemma record_usage_all file refs d usage :
  ∃ usage',
    foldl (record_usage file) (d, usage) refs
      = (d ∪ list_to_set (ref_snippet <$> refs), usage') ∧
    dom usage' = dom usage ∪ list_to_set (ref_snippet <$> refs) ∧
    usage_total usage' = (usage_total usage + List.length refs)%nat ∧
    (usage_lists_nonempty usage → usage_lists_nonempty usage').
Proof.
  revert d usage. induction refs as [|r refs IH]; intros d usage; cbn [foldl].
  - exists usage. cbn. split; [f_equal; set_solver|].
    split; [set_solver|]. split; [lia|done].
  - destruct (record_usage_step file d usage r) as (u1 & -> & Hd1 & Ht1 & Hn1).
    destruct (IH (d ∪ {[ref_snippet r]}) u1) as (u2 & -> & Hd2 & Ht2 & Hn2).
    exists u2. rewrite fmap_cons, list_to_set_cons.
    split; [f_equal; set_solver|].
    split; [rewrite Hd2, Hd1; set_solver|].
    split; [cbn; lia|auto].
Qed.

Lemma counter_add_patterns counter p :
  let counter' :=
    foldl (λ counter '(pattern_type, count),
             <[pattern_type := counter_get counter pattern_type + count]> counter)
          counter (patterns_items p) in
  counter_get counter' "type_definitions"
    = (counter_get counter "type_definitions" + type_definitions p)%nat ∧
  counter_get counter' "enum_definitions"
    = (counter_get counter "enum_definitions" + enum_definitions p)%nat ∧
  counter_get counter' "constraint_patterns"
    = (counter_get counter "constraint_patterns" + constraint_patterns p)%nat ∧
  counter_get counter' "property_patterns"
    = (counter_get counter "property_patterns" + property_patterns p)%nat.
Proof.
  cbv zeta. unfold patterns_items. cbn [foldl]. unfold counter_get.
  repeat split;
    repeat first [rewrite lookup_insert_eq
                 |rewrite lookup_insert_ne by discriminate]; done.
Qed.

Lemma scan_source_schema_consistent s f :
  scan_consistent s → scan_consistent (scan_source_schema s f).
Proof.
  intros (Hdom & Hne & Htot & Hinl). unfold scan_source_schema.
  destruct (load_json_file f) as [c|]; [destruct (truthy c)|]; [|done..].
  destruct (record_usage_all (file_path f)
              (find_snippet_references c (file_path f))
              (scan_direct_used s) (scan_snippet_usage s))
    as (usage' & -> & Hd' & Ht' & Hn').
  destruct (count_inline_delta c) as (a & b & c' & d & -> & _).
  destruct (counter_add_patterns (scan_constraint_patterns s)
              (PatternCounts a b c' d)) as (Htd & Hed & Hcp & _).
  cbn [type_definitions enum_definitions constraint_patterns] in Htd, Hed, Hcp.
  unfold scan_consistent.
  cbn [scan_snippet_usage scan_direct_used scan_total_references
       scan_total_inline scan_constraint_patterns].
  split; [by rewrite Hd', Hdom|]. split; [by apply Hn'|].
  split; [by rewrite Ht', Htot|].
  rewrite Htd, Hed, Hcp, Hinl. lia.
Qed.

Lemma scan_source_schema_direct s f :
  scan_direct_used (scan_source_schema s f)
  = collect_direct (scan_direct_used s) f.
Proof.
  rewrite collect_direct_targets. unfold scan_source_schema, file_targets.
  destruct (load_json_file f) as [c|]; [destruct (truthy c)|]; [|set_solver..].
  destruct (record_usage_all (file_path f)
              (find_snippet_references c (file_path f))
              (scan_direct_used s) (scan_snippet_usage s))
    as (usage' & -> & _).
  by destruct (count_inline_definitions c).
Qed.

Lemma scan_source_schema_paths s f :
  dom (scan_inline_counts (scan_source_schema s f))
    ⊆ dom (scan_inline_counts s) ∪ {[file_path f]}.
Proof.
  unfold scan_source_schema.
  destruct (load_json_file f) as [c|]; [destruct (truthy c)|]; [|set_solver..].
  destruct (foldl _ _ _) as [d u]. destruct (count_inline_definitions c).
  cbn [scan_inline_counts]. rewrite dom_insert_L. set_solver.
Qed.

Lemma scan_all_source_schemas sources s :
  scan_consistent s →
  let s' := foldl scan_source_schema s sources in
  scan_consistent s' ∧
  scan_direct_used s' = foldl collect_direct (scan_direct_used s) sources ∧
  dom (scan_inline_counts s')
    ⊆ dom (scan_inline_counts s) ∪ list_to_set (file_path <$> sources).
Proof.
  revert s. induction sources as [|f sources IH]; intros s Hs; cbn [foldl].
  - cbn. split; [done|]. split; [done|set_solver].
  - destruct (IH (scan_source_schema s f)) as (H1 & H2 & H3);
      [by apply scan_source_schema_consistent|].
    cbv zeta in *. split; [done|]. split.
    + by rewrite H2, scan_source_schema_direct.
    + pose proof (scan_source_schema_paths s f).
      rewrite fmap_cons, list_to_set_cons. set_solver.
Qed.

(** X18: After the loop over the source schemas: the keys of [snippet_usage] are
    exactly the directly used snippets (the set the closures start from),
    every usage list has an entry, the lengths of the usage lists add up to
    the total number of references, the total inline count is the sum of the
    type, enum and constraint entries of the aggregated counter, and inline
    counts are recorded only under paths of source schemas. *)
Theorem source_scan_bookkeeping (tree : schema_tree) :
  let s := scan_source_schemas tree in
  scan_direct_used s = foldl collect_direct ∅ (source_schemas tree) ∧
  dom (scan_snippet_usage s) = scan_direct_used s ∧
  usage_lists_nonempty (scan_snippet_usage s) ∧
  usage_total (scan_snippet_usage s) = scan_total_references s ∧
  scan_total_inline s
    = (counter_get (scan_constraint_patterns s) "type_definitions"
       + counter_get (scan_constraint_patterns s) "enum_definitions"
       + counter_get (scan_constraint_patterns s) "constraint_patterns")%nat ∧
  dom (scan_inline_counts s)
    ⊆ list_to_set (file_path <$> source_schemas tree).
Proof.
  cbv zeta. unfold scan_source_schemas.
  assert (scan_consistent empty_scan) as H0.
  { unfold scan_consistent, empty_scan, usage_lists_nonempty, usage_total,
      counter_get.
    cbn. rewrite dom_empty_L, map_fold_empty, lookup_empty. cbn.
    split; [done|]. split; [|done]. intros n sites. by rewrite lookup_empty. }
  destruct (scan_all_source_schemas (source_schemas tree) empty_scan H0)
    as ((H1 & H2 & H3 & H4) & H5 & H6).
  cbv zeta in *. cbn [empty_scan scan_direct_used scan_inline_counts] in H5, H6.
  rewrite dom_empty_L, (left_id_L ∅ (∪)) in H6.
  done.
Qed.

(** ** Names of snippets *)

Lemma split_on_not_nil sep s : split_on sep s ≠ [].
Proof.
  destruct s as [|c s]; cbn [split_on]; [done|].
  destruct (Ascii.eqb c sep); [done|]. by destruct (split_on sep s).
Qed.

Lemma split_on_lacks sep s : lacks sep s = true → split_on sep s = [s].
Proof.
  induction s as [|c s IH]; cbn [split_on lacks]; [done|].
  intros [Hc Hs]%andb_true_iff. apply negb_true_iff in Hc.
  rewrite Hc, (IH Hs). done.
Qed.

Lemma split_on_app sep a b :
  split_on sep (a ++ String sep b) = (split_on sep a ++ split_on sep b)%list.
Proof.
  induction a as [|c a IH].
  - change ("" ++ String sep b) with (String sep b).
    change (split_on sep "") with [""]. cbn [split_on app].
    by rewrite Ascii.eqb_refl.
  - change (String c a ++ String sep b) with (String c (a ++ String sep b)).
    cbn [split_on]. rewrite IH.
    destruct (Ascii.eqb c sep); [done|].
    pose proof (split_on_not_nil sep a). by destruct (split_on sep a).
Qed.

Lemma lacks_app c a b :
  lacks c (a ++ b) = lacks c a && lacks c b.
Proof.
  induction a as [|x a IH]; simpl; [done|].
  by rewrite IH, andb_assoc.
Qed.

Lemma rfind_lacks c s : lacks c s = true → rfind c s = None.
Proof.
  induction s as [|a s IH]; cbn [rfind lacks]; [done|].
  intros [Ha Hs]%andb_true_iff. apply negb_true_iff in Ha.
  by rewrite (IH Hs), Ha.
Qed.

Lemma rfind_last c n e :
  lacks c e = true → rfind c (n ++ String c e) = Some (String.length n).
Proof.
  intros He. induction n as [|a n IH]; simpl.
  - by rewrite (rfind_lacks _ _ He), Ascii.eqb_refl.
  - by rewrite IH.
Qed.

Lemma substring_prefix n e :
  String.substring 0 (String.length n) (n ++ e) = n.
Proof.
  induction n as [|a n IH]; simpl.
  - by destruct e.
  - by rewrite IH.
Qed.

Lemma length_append a b :
  String.length (a ++ b) = (String.length a + String.length b)%nat.
Proof.
  induction a as [|x a IH]; simpl; [done|].
  by rewrite IH.
Qed.

Lemma stem_of_name n e :
  plain_name n = true → plain_name e = true →
  (let name := n ++ String "."%char e in
   match rfind "." name with
   | Some i =>
       if (0 <? i)%nat && (i <? String.length name - 1)%nat
       then String.substring 0 i name
       else name
   | None => name
   end) = n.
Proof.
  unfold plain_name.
  intros [[Hn _]%andb_true_iff _]%andb_true_iff
         [[He _]%andb_true_iff Hed]%andb_true_iff.
  cbv zeta. rewrite (rfind_last _ _ _ Hed).
  assert (0 < String.length n)%nat as Hln.
  { destruct n; [done|]. cbn. lia. }
  assert (0 < String.length e)%nat as Hle.
  { destruct e; [done|]. cbn. lia. }
  rewrite length_append. cbn [String.length].
  rewrite (proj2 (Nat.ltb_lt _ _)) by lia.
  rewrite (proj2 (Nat.ltb_lt _ _)) by lia.
  cbn [andb]. apply substring_prefix.
Qed.

Lemma path_name_of_file dir name :
  lacks "/" name = true → name ≠ "" → name ≠ "." →
  path_name (dir ++ String "/"%char name) = name ∧ path_name name = name.
Proof.
  intros Hsl Hne Hnd. unfold path_name, path_parts. split.
  - rewrite split_on_app, (split_on_lacks _ _ Hsl), filter_app.
    rewrite filter_cons_True by done. rewrite filter_nil.
    apply List.last_last.
  - rewrite (split_on_lacks _ _ Hsl), filter_cons_True by done.
    by rewrite filter_nil.
Qed.

(** X19: Snippets are named by the bare file name: whatever the directory, a path
    [dir/name.ext] whose name and extension contain no slash and no dot has
    the stem [name]. A snippet file is therefore registered under the same
    name that a reference to it yields, even when the reference spells the
    directory differently. *)
Theorem stem_is_bare_file_name (dir n e : string) :
  plain_name n = true →
  plain_name e = true →
  stem (dir ++ "/" ++ n ++ "." ++ e) = n ∧
  stem (n ++ "." ++ e) = n ∧
  (∀ g content,
     snippet_files
       (scan_snippet_file g (SchemaFile (dir ++ "/" ++ n ++ "." ++ e) content))
       !! n = Some (dir ++ "/" ++ n ++ "." ++ e)).
Proof.
  intros Hn He.
  assert (lacks "/" (n ++ String "."%char e) = true) as Hsl.
  { unfold plain_name in Hn, He.
    apply andb_true_iff in Hn as [[_ Hn]%andb_true_iff _].
    apply andb_true_iff in He as [[_ He]%andb_true_iff _].
    rewrite lacks_app. cbn [lacks]. by rewrite Hn, He. }
  assert (n ++ String "."%char e ≠ "") as Hne.
  { destruct n; [done|]. done. }
  assert (n ++ String "."%char e ≠ ".") as Hnd.
  { unfold plain_name in Hn. destruct n as [|a [|b n]]; [done| |done].
    cbn. destruct e; [done|]. done. }
  destruct (path_name_of_file dir _ Hsl Hne Hnd) as [Hp1 Hp2].
  assert (stem (dir ++ "/" ++ n ++ "." ++ e) = n) as Hstem.
  { unfold stem. change (dir ++ "/" ++ n ++ "." ++ e)
      with (dir ++ String "/"%char (n ++ String "."%char e)).
    rewrite Hp1. by apply stem_of_name. }
  split; [done|]. split.
  - unfold stem. change (n ++ "." ++ e) with (n ++ String "."%char e).
    rewrite Hp2. by apply stem_of_name.
  - intros g content.
    destruct (scan_registers g (SchemaFile (dir ++ "/" ++ n ++ "." ++ e) content))
      as [Hreg _].
    cbn [file_path] in Hreg. by rewrite Hstem in Hreg.
Qed.

Lemma stem_is_bare_file_name_witness :
  stem ("schemas/snippets/types" ++ "/" ++ "Money" ++ "." ++ "json") = "Money" ∧
  stem ("Money" ++ "." ++ "json") = "Money" ∧
  (∀ g content,
     snippet_files
       (scan_snippet_file g
          (SchemaFile ("schemas/snippets/types" ++ "/" ++ "Money" ++ "." ++ "json")
                      content))
       !! "Money"
     = Some ("schemas/snippets/types" ++ "/" ++ "Money" ++ "." ++ "json")).
Proof.
  apply (stem_is_bare_file_name "schemas/snippets/types" "Money" "json");
    reflexivity.
Defined.

(** ** Breakdowns printed by the report *)

Lemma elem_of_with_category cats c names n :
  n ∈ with_category cats c names ↔ cats !! n = Some c ∧ n ∈ names.
Proof. unfold with_category. by rewrite elem_of_filter. Qed.

Lemma build_same_names dir_exists (found : list schema_file) :
  dom (snippet_categories (build_snippet_dependency_graph dir_exists found))
  = dom (snippet_files (build_snippet_dependency_graph dir_exists found)).
Proof.
  destruct dir_exists.
  - destruct (build_registered found) as [Hf Hc]. cbv zeta in Hf, Hc.
    by rewrite Hf, Hc.
  - cbn. by rewrite !dom_empty_L.
Qed.

Lemma with_category_split cats names :
  names ⊆ dom cats →
  names = with_category cats CField names ∪ with_category cats CType names
          ∪ with_category cats COther names ∧
  size names = (size (with_category cats CField names)
                + size (with_category cats CType names)
                + size (with_category cats COther names))%nat.
Proof.
  intros Hsub.
  assert (names = with_category cats CField names ∪ with_category cats CType names
                  ∪ with_category cats COther names) as Heq.
  { apply set_eq. intros n.
    rewrite !elem_of_union, !elem_of_with_category. split; [|naive_solver].
    intros Hn. pose proof (Hsub n Hn) as Hd.
    apply elem_of_dom in Hd as [[| |] Hc]; eauto. }
  split; [done|]. rewrite Heq at 1.
  rewrite !size_union; [done|..].
  - intros n. rewrite !elem_of_with_category. intros [? _] [? _]. congruence.
  - intros n. rewrite elem_of_union, !elem_of_with_category.
    intros [[? _]|[? _]] [? _]; congruence.
Qed.

(** X20: The orphaned snippets always split completely into orphaned fields,
    types and others, so the three lists of the report account for every
    orphan. The same split of the directly used snippets is complete exactly
    when every directly used name is a registered snippet: a reference to a
    missing snippet is counted as used but listed under no category. *)
Theorem report_breakdowns order (tree : schema_tree) :
  valid_order order →
  let g := build_snippet_dependency_graph (snippets_dir_exists tree)
                                          (snippets_rglob tree) in
  let cats := snippet_categories g in
  ∃ u, analyze_schemas order tree = Some u ∧
       orphaned_snippets u
         = with_category cats CField (orphaned_snippets u)
           ∪ with_category cats CType (orphaned_snippets u)
           ∪ with_category cats COther (orphaned_snippets u) ∧
       size (orphaned_snippets u)
         = (size (with_category cats CField (orphaned_snippets u))
            + size (with_category cats CType (orphaned_snippets u))
            + size (with_category cats COther (orphaned_snippets u)))%nat ∧
       (direct_used_snippets u
          = with_category cats CField (direct_used_snippets u)
            ∪ with_category cats CType (direct_used_snippets u)
            ∪ with_category cats COther (direct_used_snippets u)
        ↔ direct_used_snippets u ⊆ dom (snippet_files g)).
Proof.
  intros Hv. cbv zeta. unfold analyze_schemas.
  set (g := build_snippet_dependency_graph _ _).
  pose proof (build_same_names (snippets_dir_exists tree) (snippets_rglob tree))
    as Hnames. fold g in Hnames.
  set (direct := foldl collect_direct ∅ (source_schemas tree)).
  destruct (compute_usage_spec order (snippet_deps g) (snippet_categories g)
              (dom (snippet_files g)) direct Hv) as (used & reach & -> & _).
  eexists. split; [done|].
  cbn [orphaned_snippets direct_used_snippets].
  assert (dom (snippet_files g) ∖ used ⊆ dom (snippet_categories g)) as Hsub.
  { rewrite Hnames. set_solver. }
  destruct (with_category_split _ _ Hsub) as [Ho Hs].
  split; [done|]. split; [done|]. split.
  - intros Heq n Hn. rewrite <-Hnames. rewrite Heq in Hn.
    apply elem_of_dom.
    rewrite !elem_of_union, !elem_of_with_category in Hn.
    destruct Hn as [[[-> _]|[-> _]]|[-> _]]; eauto.
  - intros Hd. rewrite <-Hnames in Hd.
    by destruct (with_category_split _ _ Hd) as [Hdsplit _].
Qed.

Lemma report_breakdowns_witness :
  let g := build_snippet_dependency_graph (snippets_dir_exists scenario_tree)
                                          (snippets_rglob scenario_tree) in
  let cats := snippet_categories g in
  ∃ u, analyze_schemas sorted_order scenario_tree = Some u ∧
       orphaned_snippets u
         = with_category cats CField (orphaned_snippets u)
           ∪ with_category cats CType (orphaned_snippets u)
           ∪ with_category cats COther (orphaned_snippets u) ∧
       size (orphaned_snippets u)
         = (size (with_category cats CField (orphaned_snippets u))
            + size (with_category cats CType (orphaned_snippets u))
            + size (with_category cats COther (orphaned_snippets u)))%nat ∧
       (direct_used_snippets u
          = with_category cats CField (direct_used_snippets u)
            ∪ with_category cats CType (direct_used_snippets u)
            ∪ with_category cats COther (direct_used_snippets u)
        ↔ direct_used_snippets u ⊆ dom (snippet_files g)).
Proof.
  apply (report_breakdowns sorted_order scenario_tree).
  exact sorted_order_valid.
Defined.

(** ** Loads that raise *)


Lemma scan_source_schema_run_loaded s f :
  scan_source_schema_run s f =
  match load_json_file_run (disk_read f) with
  | Returns _ => Returns (scan_source_schema s (loaded_file f))
  | Raises e => Raises e
  end.
Proof.
  unfold scan_source_schema_run, loaded_file.
  by destruct (load_json_file_run (disk_read f)).
Qed.


Lemma scan_sources_run sources s :
  foldl_run scan_source_schema_run s sources =
  match first_uncaught sources with
  | Some e => Raises e
  | None => Returns (foldl scan_source_schema s (loaded_file <$> sources))
  end.
Proof.
  revert s. induction sources as [|f sources IH]; intros s;
    cbn [foldl_run first_uncaught]; [done|].
  rewrite scan_source_schema_run_loaded.
  destruct (load_json_file_run (disk_read f)) as [content|e]; [|done].
  by rewrite IH, fmap_cons.
Qed.






Example caught_failure_example :
  ∃ g, build_snippet_dependency_graph_run true broken_snippet_files = Returns g ∧
       snippet_deps g = {[ "A" := {[ "B" ]} ]} ∧
       snippet_categories g = {[ "A" := CType; "F" := CField ]}.
Proof. eexists. split; [reflexivity|]. split; vm_compute; reflexivity. Qed.

(** ** A run without the snippets directory *)

Lemma scan_sources_direct sources :
  scan_direct_used (foldl scan_source_schema empty_scan sources)
  = ⋃ (file_targets <$> sources).
Proof.
  assert (scan_consistent empty_scan) as H0.
  { unfold scan_consistent, empty_scan, usage_lists_nonempty, usage_total,
      counter_get.
    cbn. rewrite dom_empty_L, map_fold_empty, lookup_empty. cbn.
    split; [done|]. split; [|done]. intros n sites. by rewrite lookup_empty. }
  destruct (scan_all_source_schemas sources empty_scan H0) as (_ & Hd & _).
  cbv zeta in Hd. rewrite Hd. cbn [empty_scan scan_direct_used].
  by rewrite collect_all_direct, (left_id_L ∅ (∪)).
Qed.

(** X13: when [schemas/snippets] does not exist and no source schema raises
    an exception that [load_json_file] lets through, the run depends on
    whether there is a source schema. With at least one, the report is
    built from these sets: the used snippets are exactly the names the
    source schemas reference, and there are no transitive types, no flagged
    fields and no orphans. With none, [generate_report] divides by zero and
    the run ends with ZeroDivisionError. *)
Theorem missing_snippets_directory order (files : list disk_file) :
  valid_order order →
  let tree := DiskTree false files in
  let sources := disk_source_schemas tree in
  first_uncaught sources = None →
  let direct := ⋃ (file_targets <$> (loaded_file <$> sources)) in
  analyze_schemas_run order tree =
    Some (match sources with
          | [] => Raises ZeroDivisionError
          | _ :: _ => Returns (UsageSets direct direct ∅ ∅ ∅)
          end).
Proof.
  intros Hv. cbv zeta. intros Hnone. unfold analyze_schemas_run.
  cbn [disk_snippets_dir_exists build_snippet_dependency_graph_run
       snippet_deps snippet_files snippet_categories].
  rewrite scan_sources_run, Hnone, scan_sources_direct, dom_empty_L.
  rewrite (no_edges_usage order ∅ ∅ _ Hv).
  assert ((∅ : gset string) ∖ ⋃ (file_targets <$> (loaded_file <$>
            disk_source_schemas (DiskTree false files))) = ∅) as -> by set_solver.
  unfold generate_report_run.
  by destruct (disk_source_schemas (DiskTree false files)).
Qed.

Lemma missing_snippets_directory_witness :
  let sources := disk_source_schemas no_snippets_tree in
  let direct := ⋃ (file_targets <$> (loaded_file <$> sources)) in
  analyze_schemas_run sorted_order no_snippets_tree =
    Some (match sources with
          | [] => Raises ZeroDivisionError
          | _ :: _ => Returns (UsageSets direct direct ∅ ∅ ∅)
          end).
Proof.
  apply (missing_snippets_directory sorted_order (disk_files no_snippets_tree)).
  - exact sorted_order_valid.
  - reflexivity.
Defined.

Example missing_directory_examples :
  analyze_schemas_run sorted_order no_snippets_tree
    = Some (Returns (UsageSets {[ "A" ]} {[ "A" ]} ∅ ∅ ∅)) ∧
  analyze_schemas_run sorted_order (DiskTree false [])
    = Some (Raises ZeroDivisionError).
Proof. split; vm_compute; reflexivity. Qed.
